(** * Tezos synchronisation and Bitcoin max-spendable estimation

    A shallow embedding of
    - [src/families/tezos/synchronisation.js]: the transaction classifier
      [txToOp], the paginated fetcher [fetchAllTransactions] and the
      sub-account reconciler [reconciliateSubAccounts];
    - [src/families/bitcoin/js-estimateMaxSpendable.ts]: [estimateMaxSpendable].

    Conventions of the embedding.
    - A JavaScript number that carries an amount, a fee, a level or an id is an
      integer of [Z]; floating point (NaN, fractions, precision loss above
      2^53) is outside the model.  A [BigNumber] built from such numbers is an
      integer of [Z] too.
    - A property that may be [undefined] (or [null]) is an [option].
    - [a || b], [!a], [a ? b : c] follow JavaScript truthiness: [undefined],
      [0] and the empty string are falsy, every object is truthy.
    - [===] on primitive values is equality of the values; on objects it is
      equality of their addresses. *)

From Stdlib Require Import ZArith Lia.
From stdpp Require Import base option list strings gmap pretty.

Open Scope Z_scope.

(** ** JavaScript primitives used by the sources *)

Module JS.

(** [BigNumber] of bignumber.js, restricted to integers. *)
Definition BigNumber := Z.

Definition plus (a : BigNumber) (b : Z) : BigNumber := a + b.
Definition eq (a : BigNumber) (b : Z) : bool := a =? b.
Definition lt (a : BigNumber) (b : Z) : bool := a <? b.

(** Truthiness of an optional number and of an optional string. *)
Definition truthy_num (x : option Z) : bool :=
  match x with
  | Some n => negb (n =? 0)
  | None => false
  end.

Definition truthy_str (x : option string) : bool :=
  match x with
  | Some s => negb (String.eqb s "")
  | None => false
  end.

(** [x || d] for an optional number [x] and a number [d]. *)
Definition num_or (x : option Z) (d : Z) : Z :=
  if truthy_num x then default d x else d.

(** [x || d] for an optional string [x] and a string [d]. *)
Definition str_or (x : option string) (d : string) : string :=
  if truthy_str x then default d x else d.

(** [x === s] and [x !== s] for an optional string [x] and a string [s]. *)
Definition str_seq (x : option string) (s : string) : bool :=
  match x with
  | Some y => String.eqb y s
  | None => false
  end.

Definition str_sne (x : option string) (s : string) : bool :=
  negb (str_seq x s).

(** [x < d] for an optional number [x]: [undefined < d] is [false]. *)
Definition num_lt (x : option Z) (d : Z) : bool :=
  match x with
  | Some n => n <? d
  | None => false
  end.

(** What a template literal or [+] on strings prints for an optional
    string. *)
Definition show_str (x : option string) : string :=
  default "undefined" x.

End JS.

(** ** The transaction classifier, [txToOp] *)

Module Classifier.

Import JS.

(** [{ address: string }], the shape of [initiator], [sender], [target],
    [newDelegate] and [originatedContract]. *)
Record Party := mkParty { party_address : string }.

(** A raw operation of the indexer ([APIOperation]), as the flat object the
    classifier reads: every property it touches, each possibly absent. *)
Record APIOperation := mkAPIOperation {
  tx_id : option Z;
  tx_type : string;
  tx_status : option string;
  tx_hash : option string;
  tx_initiator : option Party;
  tx_sender : option Party;
  tx_target : option Party;
  tx_amount : option Z;
  tx_newDelegate : option Party;
  tx_balanceChange : option Z;
  tx_contractBalance : option Z;
  tx_originatedContract : option Party;
  tx_balance : option Z;
  tx_allocationFee : option Z;
  tx_bakerFee : option Z;
  tx_storageFee : option Z;
  tx_level : option Z;
  tx_block : option string;
  tx_timestamp : option string
}.

Inductive OperationType :=
  | IN | OUT | FEES | DELEGATE | UNDELEGATE | REVEAL | CREATE.

#[export] Instance OperationType_eq_dec : EqDecision OperationType.
Proof. solve_decision. Defined.

(** The canonical operation.  [op_date] keeps the timestamp that
    [new Date(timestamp)] is built from; [op_extra] is the empty object. *)
Record Operation := mkOperation {
  op_id : string;
  op_hash : option string;
  op_type : OperationType;
  op_value : BigNumber;
  op_fee : BigNumber;
  op_senders : list string;
  op_recipients : list string;
  op_blockHeight : option Z;
  op_blockHash : option string;
  op_accountId : string;
  op_date : option string;
  op_extra : unit;
  op_hasFailed : bool
}.

(** What [console.warn] is called with on the two early exits. *)
Inductive Warning :=
  | Unrelated (message : string)
  | Unsupported (tx : APIOperation).

(** The state of the locals when the [switch] is left by [break]. *)
Record Classified := mkClassified {
  c_type : OperationType;
  c_maybeValue : option BigNumber;
  c_senders : list string;
  c_recipients : list string
}.

(** How the [switch] ends: by [break], by [return] after a warning, or by
    the TypeError of reading [.address] of [undefined]. *)
Inductive SwitchResult :=
  | Break (c : Classified)
  | Return (w : Warning)
  | SwitchTypeError.

(** The result of [txToOp]: an operation, [undefined] (after a warning or
    silently), or a TypeError. *)
Inductive TxResult :=
  | Emitted (op : Operation)
  | Undefined (w : option Warning)
  | TypeError.

(** [tx.status ? tx.status !== "applied" : false] *)
Definition hasFailed (tx : APIOperation) : bool :=
  if truthy_str (tx_status tx)
  then str_sne (tx_status tx) "applied"
  else false.

(** The [switch (tx.type)] of lines 95-157. *)
Definition classify (address : string) (tx : APIOperation) : SwitchResult :=
  if String.eqb (tx_type tx) "transaction" then
    let initiator := party_address <$> tx_initiator tx in
    let from := party_address <$> tx_sender tx in
    let to := party_address <$> tx_target tx in
    if str_sne from address && str_sne to address && str_sne initiator address
    then Return (Unrelated
                   ("found tx is unrelated to account! " +:+ show_str (tx_hash tx)))
    else
      let senders := [str_or from (str_or initiator "")] in
      let recipients := [str_or to ""] in
      if (str_seq from address && str_seq to address)
         || (str_sne from address && str_sne to address)
      then Break (mkClassified FEES None senders recipients)
      else
        let type := if str_seq to address then IN else OUT in
        if negb (hasFailed tx) then
          let maybeValue := num_or (tx_amount tx) 0 in
          if eq maybeValue 0
          then Break (mkClassified FEES (Some maybeValue) senders recipients)
          else Break (mkClassified type (Some maybeValue) senders recipients)
        else Break (mkClassified type None senders recipients)
  else if String.eqb (tx_type tx) "delegation" then
    Break (mkClassified
             (match tx_newDelegate tx with
              | Some _ => DELEGATE
              | None => UNDELEGATE
              end)
             None
             [address]
             [match tx_newDelegate tx with
              | Some d => party_address d
              | None => ""
              end])
  else if String.eqb (tx_type tx) "reveal" then
    Break (mkClassified REVEAL None [address] [address])
  else if String.eqb (tx_type tx) "migration" then
    Break (mkClassified
             (if num_lt (tx_balanceChange tx) 0 then OUT else IN)
             (Some (Z.abs (num_or (tx_balanceChange tx) 0)))
             [address]
             [address])
  else if String.eqb (tx_type tx) "origination" then
    match tx_originatedContract tx with
    | Some c =>
        Break (mkClassified
                 CREATE
                 (Some (num_or (tx_contractBalance tx) 0))
                 [address]
                 [party_address c])
    | None => SwitchTypeError
    end
  else if String.eqb (tx_type tx) "activation" then
    Break (mkClassified
             IN
             (Some (num_or (tx_balance tx) 0))
             [address]
             [address])
  else Return (Unsupported tx).

(** [maybeValue || BigNumber(0)]: a BigNumber is an object, hence truthy. *)
Definition principal (c : Classified) : BigNumber :=
  default 0 (c_maybeValue c).

(** Lines 174-178: the fee. *)
Definition computeFee (tx : APIOperation) : BigNumber :=
  let fee := num_or (tx_bakerFee tx) 0 in
  if negb (hasFailed tx)
  then plus (plus fee (num_or (tx_allocationFee tx) 0))
            (num_or (tx_storageFee tx) 0)
  else fee.

Section WithOperationId.

(** [encodeOperationId], imported from [../../operation]: the id of an
    operation, made from the account id, the hash and the type. *)
Variable encodeOperationId : string → option string → OperationType → string.

(** Lines 159-198: what follows the [switch]. *)
Definition settle (accountId : string) (tx : APIOperation) (c : Classified)
  : TxResult :=
  let type := c_type c in
  let value := principal c in
  if bool_decide (type = IN) && eq value 0 then Undefined None
  else
    let fee := computeFee tx in
    let value := if bool_decide (type ≠ IN) then plus value fee else value in
    Emitted {|
      op_id := encodeOperationId accountId (tx_hash tx) type;
      op_hash := tx_hash tx;
      op_type := type;
      op_value := value;
      op_fee := fee;
      op_senders := c_senders c;
      op_recipients := c_recipients c;
      op_blockHeight := tx_level tx;
      op_blockHash := tx_block tx;
      op_accountId := accountId;
      op_date := tx_timestamp tx;
      op_extra := tt;
      op_hasFailed := hasFailed tx
    |}.

Definition txToOp (address accountId : string) (tx : APIOperation)
  : TxResult :=
  match classify address tx with
  | Break c => settle accountId tx c
  | Return w => Undefined (Some w)
  | SwitchTypeError => TypeError
  end.

End WithOperationId.

End Classifier.

(** ** The paginated fetcher, [fetchAllTransactions] *)

Module Fetcher.

Import JS Classifier.

Section WithIndexer.

(** The indexer is an external service: its answer to a request may
    depend on a state of its own, which a request may change. *)
Context {World : Type}.

(** [api.getAccountOperations(address, { lastId })], awaited and
    answered.  (A rejected promise is not caught by the fetcher and goes to
    its caller.) *)
Variable getAccountOperations :
  string → option Z → World → list APIOperation * World.

(** One round trip: the cursor sent and the page received. *)
Record Fetch := mkFetch {
  request : option Z;
  page : list APIOperation
}.

(** The state the fetcher runs in: the indexer, the round trips made so
    far (oldest first) and the lines given to [log]. *)
Record State := mkState {
  world : World;
  fetches : list Fetch;
  logs : list (string * string)
}.

Definition M (A : Type) : Type := State → A * State.

Definition ret {A} (a : A) : M A := λ s, (a, s).

Definition bind {A B} (m : M A) (k : A → M B) : M B :=
  λ s, let '(a, s') := m s in k a s'.

Definition await_getAccountOperations (address : string) (lastId : option Z)
  : M (list APIOperation) :=
  λ s,
    let '(r, w) := getAccountOperations address lastId (world s) in
    (r, mkState w (fetches s ++ [mkFetch lastId r]) (logs s)).

Definition log (type message : string) : M unit :=
  λ s, (tt, mkState (world s) (fetches s) (logs s ++ [(type, message)])).

(** [txs[txs.length - 1].id] *)
Definition lastItemId (txs : list APIOperation) : option Z :=
  last txs ≫= tx_id.

(** The [do ... while (--maxIteration)] loop of lines 208-217, entered
    with the current value of [maxIteration].  The counter starts at 20
    and the loop is left when the decrement reaches 0, so the loop is
    never entered with 0. *)
Fixpoint doWhile (maxIteration : nat) (address : string)
    (lastId : option Z) (txs : list APIOperation) : M (list APIOperation) :=
  match maxIteration with
  | O => ret txs
  | S decremented =>
      bind (await_getAccountOperations address lastId) (λ r,
        if (length r =? 0)%nat then ret txs
        else
          let txs := txs ++ r in
          let lastId := lastItemId txs in
          if negb (truthy_num lastId)
          then bind (log "tezos" "id missing!") (λ _, ret txs)
          else
            match decremented with
            | O => ret txs
            | S _ => doWhile decremented address lastId txs
            end)
  end.

Definition fetchAllTransactions (address : string) (lastId : option Z)
  : M (list APIOperation) :=
  doWhile 20 address lastId [].

(** Observations on a fetch: its page is empty; the cursor read from the
    last item of its page is missing, that is [!lastId] holds (the item has
    no id, or the falsy id 0). *)
Definition emptyPage (f : Fetch) : Prop := page f = [].

Definition cursorMissing (f : Fetch) : Prop :=
  truthy_num (lastItemId (page f)) = false.

(** A fetch after which the loop asks for no further page. *)
Definition stopsPaging (f : Fetch) : Prop := emptyPage f ∨ cursorMissing f.

(** The state a call starts from. *)
Definition start (w : World) : State := mkState w [] [].

(** [answered address w fs]: from the indexer state [w], the pages of [fs]
    are the indexer's answers to the requests of [fs], made in that order
    for [address]. *)
Fixpoint answered (address : string) (w : World) (fs : list Fetch) : Prop :=
  match fs with
  | [] => True
  | f :: rest =>
      page f = fst (getAccountOperations address (request f) w)
      ∧ answered address (snd (getAccountOperations address (request f) w)) rest
  end.

(** [chained lastId fs]: the first request of [fs] carries [lastId] and each
    later one carries the id of the last item of the page before it. *)
Fixpoint chained (lastId : option Z) (fs : list Fetch) : Prop :=
  match fs with
  | [] => True
  | f :: rest => request f = lastId ∧ chained (lastItemId (page f)) rest
  end.

End WithIndexer.

End Fetcher.

(** ** The sub-account reconciler, [reconciliateSubAccounts] *)

Module Reconciler.

(** Addresses of objects and of arrays: two references are [===] exactly
    when they are the same address. *)
Definition loc := positive.

Inductive value :=
  | VUndefined
  | VNull
  | VBoolean (b : bool)
  | VNumber (n : Z)
  | VString (s : string)
  | VObject (l : loc).

#[export] Instance value_eq_dec : EqDecision value.
Proof. solve_decision. Defined.

(** [a !== b] *)
Definition strict_ne (a b : value) : bool := bool_decide (a ≠ b).

(** What a template literal prints for a value. *)
Definition show (v : value) : string :=
  match v with
  | VUndefined => "undefined"
  | VNull => "null"
  | VBoolean true => "true"
  | VBoolean false => "false"
  | VNumber n => pretty n
  | VString s => s
  | VObject _ => "[object Object]"
  end.

(** An object: its enumerable properties in the order [for ... in] visits
    them. *)
Definition object := list (string * value).

(** [o[k]], [undefined] when [o] has no property [k]. *)
Definition get (o : object) (k : string) : value :=
  match find (λ kv, String.eqb (fst kv) k) o with
  | Some kv => snd kv
  | None => VUndefined
  end.

(** The store: the objects and the arrays (of references to objects) that
    live at each address.  No reference of a JavaScript program dangles;
    reading an address that holds nothing gives the empty object or the
    empty array. *)
Record heap := mkHeap {
  objects : gmap loc object;
  arrays : gmap loc (list loc)
}.

Definition objectAt (h : heap) (l : loc) : object := objects h !!! l.
Definition arrayAt (h : heap) (l : loc) : list loc := arrays h !!! l.

(** A new array, as [Array.prototype.map] makes one. *)
Definition newArray (h : heap) (items : list loc) : loc * heap :=
  let l := fresh (dom (arrays h)) in
  (l, mkHeap (objects h) (<[l := items]> (arrays h))).

(** The one property of an account the reconciler reads. *)
Record Account := mkAccount {
  subAccounts : option loc
}.

(** [initialSubAccounts.find((a) => a.id === ta.id)] *)
Definition findById (h : heap) (initialSubAccounts : list loc) (id : value)
  : option loc :=
  find (λ a, bool_decide (get (objectAt h a) "id" = id)) initialSubAccounts.

(** The [for (let k in existing)] loop of lines 241-247: the first
    property of [existing] that [ta] does not hold the same value for. *)
Definition firstChangedField (existing ta : object) : option string :=
  fst <$> find (λ kv, strict_ne (get existing (fst kv)) (get ta (fst kv)))
               existing.

(** The locals the callback of [map] writes to. *)
Record Locals := mkLocals {
  anySubAccountHaveChanged : bool;
  stats : list string
}.

(** The callback of [tokenAccounts.map] of lines 236-259. *)
Definition reconcileOne (h : heap) (initialSubAccounts : option (list loc))
    (ta : loc) (s : Locals) : loc * Locals :=
  let id := get (objectAt h ta) "id" in
  match initialSubAccounts ≫= (λ prev, findById h prev id) with
  | Some existing =>
      let changed :=
        if bool_decide (existing ≠ ta)
        then firstChangedField (objectAt h existing) (objectAt h ta)
        else None in
      match changed with
      | None => (existing, s)
      | Some k =>
          (ta,
           mkLocals true
             (stats s ++ ["field " +:+ k +:+ " changed for " +:+ show id]))
      end
  | None =>
      (ta, mkLocals true (stats s ++ ["new token account " +:+ show id]))
  end.

(** [tokenAccounts.map(callback)]: the callback runs on the items in
    order. *)
Fixpoint mapItems (h : heap) (initialSubAccounts : option (list loc))
    (tokenAccounts : list loc) (s : Locals) : list loc * Locals :=
  match tokenAccounts with
  | [] => ([], s)
  | ta :: rest =>
      let '(r, s1) := reconcileOne h initialSubAccounts ta s in
      let '(rs, s2) := mapItems h initialSubAccounts rest s1 in
      (r :: rs, s2)
  end.

(** [stats.join(", ")] *)
Fixpoint join (sep : string) (l : list string) : string :=
  match l with
  | [] => ""
  | [x] => x
  | x :: rest => x +:+ sep +:+ join sep rest
  end.

(** What a call leaves behind: the array it returns, the store, the line
    it logs, and the final value of its local [stats]. *)
Record Outcome := mkOutcome {
  returned : loc;
  store : heap;
  logged : option (string * string);
  notes : list string
}.

Definition reconciliateSubAccounts (h : heap) (tokenAccounts : loc)
    (initialAccount : option Account) : Outcome :=
  match initialAccount with
  | Some account =>
      let initialSubAccounts := subAccounts account in
      let s0 :=
        match initialSubAccounts with
        | Some prev =>
            if bool_decide (length (arrayAt h tokenAccounts)
                            ≠ length (arrayAt h prev))
            then mkLocals true ["length differ"]
            else mkLocals false []
        | None => mkLocals false []
        end in
      let '(items, s) :=
        mapItems h (arrayAt h <$> initialSubAccounts)
                 (arrayAt h tokenAccounts) s0 in
      let '(mapped, h') := newArray h items in
      match anySubAccountHaveChanged s, initialSubAccounts with
      | false, Some prev =>
          mkOutcome prev h'
            (Some ("ethereum",
                   "incremental sync: "
                   +:+ pretty (length (arrayAt h prev))
                   +:+ " sub accounts have not changed"))
            (stats s)
      | _, _ =>
          mkOutcome mapped h'
            (Some ("ethereum",
                   "incremental sync: sub accounts changed: "
                   +:+ join ", " (stats s)))
            (stats s)
      end
  | None =>
      let '(mapped, h') := newArray h (arrayAt h tokenAccounts) in
      mkOutcome mapped h' None []
  end.

(** *** Observations on a call *)

(** The flag is raised exactly when a note has been recorded. *)
Definition inStep (s : Locals) : Prop :=
  anySubAccountHaveChanged s = false ↔ stats s = [].

(** The [id] of the sub-account at an address. *)
Definition idOf (h : heap) (a : loc) : value := get (objectAt h a) "id".

(** Every property holds the same value in the two sub-accounts. *)
Definition shallowEqual (h : heap) (a b : loc) : Prop :=
  ∀ k, get (objectAt h a) k = get (objectAt h b) k.

(** Sub-accounts are keyed by their id: no two of a list share one. *)
Definition keyedById (h : heap) (l : list loc) : Prop :=
  NoDup (idOf h <$> l).

(** The outcome returns the derived sub-account of index [i] as the object
    [p]: the array returned holds the reference [p], at index [i] unless the
    array is the previous one, [prev]. *)
Definition returnedAs (out : Outcome) (prev : loc) (i : nat) (p : loc) : Prop :=
  p ∈ arrayAt (store out) (returned out)
  ∧ (returned out ≠ prev → arrayAt (store out) (returned out) !! i = Some p).

End Reconciler.

(** ** Bitcoin: [estimateMaxSpendable] *)

Module Bitcoin.

Import JS.

Record Transaction := mkTransaction {
  feePerByte : option BigNumber
}.

Record FeeItems := mkFeeItems {
  defaultFeePerByte : BigNumber
}.

Record NetworkInfo := mkNetworkInfo {
  feeItems : FeeItems
}.

(** [feePerByte.toNumber()] *)
Definition toNumber (b : BigNumber) : Z := b.

Section WithWallet.

(** The collaborators of [../../account], [./wallet] and
    [./getAccountNetworkInfo], with every awaited promise resolved. *)
Context {AccountLike Account WalletAccount : Type}.
Variable getMainAccount : AccountLike → option Account → Account.
Variable getWalletAccount : Account → WalletAccount.
Variable getAccountNetworkInfo : Account → NetworkInfo.
Variable estimateAccountMaxSpendable : WalletAccount → Z → BigNumber.

(** The fee rate handed to the wallet: [transaction?.feePerByte], or the
    network's default when that is missing (a BigNumber is truthy). *)
Definition chosenFeePerByte (mainAccount : Account)
    (transaction : option Transaction) : BigNumber :=
  match transaction ≫= feePerByte with
  | Some feePerByte => feePerByte
  | None => defaultFeePerByte (feeItems (getAccountNetworkInfo mainAccount))
  end.

Definition estimateMaxSpendable (account : AccountLike)
    (parentAccount : option Account) (transaction : option Transaction)
  : BigNumber :=
  let mainAccount := getMainAccount account parentAccount in
  let walletAccount := getWalletAccount mainAccount in
  let feePerByte := chosenFeePerByte mainAccount transaction in
  let maxSpendable :=
    estimateAccountMaxSpendable walletAccount (toNumber feePerByte) in
  if lt maxSpendable 0 then 0 else maxSpendable.

End WithWallet.

End Bitcoin.

(** ** Sample inputs *)

Module Examples.

Import JS Classifier Reconciler.

(** An encoder of operation ids, in the shape accountId-hash-type. *)
Definition typeName (type : OperationType) : string :=
  match type with
  | IN => "IN"
  | OUT => "OUT"
  | FEES => "FEES"
  | DELEGATE => "DELEGATE"
  | UNDELEGATE => "UNDELEGATE"
  | REVEAL => "REVEAL"
  | CREATE => "CREATE"
  end.

Definition encodeOperationId (accountId : string) (hash : option string)
    (type : OperationType) : string :=
  accountId +:+ "-" +:+ show_str hash +:+ "-" +:+ typeName type.

(** A raw transfer with the given status, parties, amount and baker fee. *)
Definition transfer (status : option string)
    (initiator sender target : option string) (amount bakerFee : option Z)
  : APIOperation :=
  {| tx_id := Some 42;
     tx_type := "transaction";
     tx_status := status;
     tx_hash := Some "op";
     tx_initiator := mkParty <$> initiator;
     tx_sender := mkParty <$> sender;
     tx_target := mkParty <$> target;
     tx_amount := amount;
     tx_newDelegate := None;
     tx_balanceChange := None;
     tx_contractBalance := None;
     tx_originatedContract := None;
     tx_balance := None;
     tx_allocationFee := None;
     tx_bakerFee := bakerFee;
     tx_storageFee := None;
     tx_level := Some 7;
     tx_block := Some "blk";
     tx_timestamp := Some "2021-01-01T00:00:00Z" |}.

(** The account A sends 100 to B and pays a baker fee of 1. *)
Definition outgoing : APIOperation :=
  transfer (Some "applied") None (Some "A") (Some "B") (Some 100) (Some 1).

Definition outgoing_op : Operation :=
  {| op_id := "acc-op-OUT";
     op_hash := Some "op";
     op_type := OUT;
     op_value := 101;
     op_fee := 1;
     op_senders := ["A"];
     op_recipients := ["B"];
     op_blockHeight := Some 7;
     op_blockHash := Some "blk";
     op_accountId := "acc";
     op_date := Some "2021-01-01T00:00:00Z";
     op_extra := tt;
     op_hasFailed := false |}.

(** The account A sends 5 to itself. *)
Definition selfTransfer : APIOperation :=
  transfer (Some "applied") None (Some "A") (Some "A") (Some 5) (Some 2).

(** The account A sends nothing to B. *)
Definition zeroAmount : APIOperation :=
  transfer (Some "applied") None (Some "A") (Some "B") (Some 0) (Some 3).

(** B sends 50 to the account A, and the transfer fails. *)
Definition failedIncoming : APIOperation :=
  transfer (Some "failed") None (Some "B") (Some "A") (Some 50) (Some 1).

(** An indexer that answers every request with one more transfer. *)
Definition endlessIndexer (address : string) (lastId : option Z) (w : unit)
  : list APIOperation * unit :=
  ([outgoing], w).

(** An indexer that holds two transfers for an account, on one page, and
    counts the requests it gets. *)
Definition smallIndexer (address : string) (lastId : option Z) (w : nat)
  : list APIOperation * nat :=
  match lastId with
  | None => ([outgoing; selfTransfer], S w)
  | Some _ => ([], S w)
  end.

(** An indexer whose items carry no id. *)
Definition noIdIndexer (address : string) (lastId : option Z) (w : unit)
  : list APIOperation * unit :=
  ([mkAPIOperation None "reveal" (Some "applied") (Some "op")
      None None None None None None None None None None None None
      None None None], w).

(** A store with one previous sub-account (at 1, in the array at 10) and one
    derived sub-account (at 2, in the array at 11) that hold the same
    values. *)
Definition unchangedStore : heap :=
  {| objects :=
       list_to_map
         [(1%positive, [("id", VString "tz+token"); ("balance", VNumber 5)]);
          (2%positive, [("id", VString "tz+token"); ("balance", VNumber 5)])];
     arrays :=
       list_to_map [(10%positive, [1%positive]); (11%positive, [2%positive])] |}.

Definition previousAccount : Account := {| subAccounts := Some 10%positive |}.

(** The same, the derived sub-account holding another balance. *)
Definition changedStore : heap :=
  {| objects :=
       list_to_map
         [(1%positive, [("id", VString "tz+token"); ("balance", VNumber 5)]);
          (2%positive, [("id", VString "tz+token"); ("balance", VNumber 6)])];
     arrays :=
       list_to_map [(10%positive, [1%positive]); (11%positive, [2%positive])] |}.

(** A previous list in which two sub-accounts (at 1 and 3) share an id, the
    derived sub-account (at 2) holding the values of the second. *)
Definition sharedIdStore : heap :=
  {| objects :=
       list_to_map
         [(1%positive, [("id", VString "tz+token"); ("balance", VNumber 5)]);
          (3%positive, [("id", VString "tz+token"); ("balance", VNumber 6)]);
          (2%positive, [("id", VString "tz+token"); ("balance", VNumber 6)])];
     arrays :=
       list_to_map
         [(10%positive, [1%positive; 3%positive]); (11%positive, [2%positive])] |}.

End Examples.

(** ** The account shape builder, [getAccountShape] *)

Module Shape.

Import JS Classifier Fetcher.

(** What [getAccountShape] reads of [infoInput]: the address, the account
    id and, when there is one, the operations of the initial account. *)
Record InitialAccount := mkInitialAccount {
  initial_operations : list Operation
}.

Record InfoInput := mkInfoInput {
  info_address : string;
  info_id : string;
  info_initialAccount : option InitialAccount
}.

(** What it reads of the answer of [api.getAccountByAddress]. *)
Record APIAccount := mkAPIAccount {
  account_type : string;
  account_balance : Z;
  account_revealed : option bool
}.

Record TezosResources := mkTezosResources {
  revealed : option bool
}.

Section WithDate.

(** What [new Date()] gives. *)
Context {Date : Type}.

(** The two objects the function returns: the one of an empty account, and
    the account shape. *)
Record AccountShape := mkAccountShape {
  operations : list Operation;
  balance : BigNumber;
  subAccounts : list Reconciler.loc;
  spendableBalance : BigNumber;
  blockHeight : Z;
  lastSyncDate : Date;
  tezosResources : TezosResources
}.

(** How a call ends: with one of the two objects, with the error of
    [invariant], or with the TypeError of [txToOp]. *)
Inductive Completion :=
  | Minimal (blockHeight : Z) (lastSyncDate : Date)
  | Full (shape : AccountShape)
  | InvariantFailed (message : string)
  | Throws.

(** [apiOperations.map(txToOp(infoInput))] throws when a call of [txToOp]
    does. *)
Definition isTypeError (r : TxResult) : bool :=
  match r with
  | TypeError => true
  | _ => false
  end.

(** [.filter(Boolean)]: an operation is an object, hence truthy;
    [undefined] is dropped. *)
Definition defined (r : TxResult) : option Operation :=
  match r with
  | Emitted op => Some op
  | _ => None
  end.

Context {World : Type}.

(** The collaborators: the indexer's pages; [Promise.all] of
    [api.getAccountByAddress(address)] and [api.getBlockCount()], awaited
    and answered; the clock; [encodeOperationId] and [mergeOps], imported
    from [../../operation] and [../../bridge/jsHelpers]. *)
Variable getAccountOperations :
  string → option Z → World → list APIOperation * World.
Variable getAccountAndBlockCount : string → World → (APIAccount * Z) * World.
Variable now : World → Date * World.
Variable encodeOperationId : string → option string → OperationType → string.
Variable mergeOps : list Operation → list Operation → list Operation.

Definition await_all (address : string) : M (APIAccount * Z) :=
  λ s,
    let '(r, w) := getAccountAndBlockCount address (world s) in
    (r, mkState w (fetches s) (logs s)).

Definition newDate : M Date :=
  λ s,
    let '(d, w) := now (world s) in
    (d, mkState w (fetches s) (logs s)).

Definition getAccountShape (infoInput : InfoInput) : M Completion :=
  let address := info_address infoInput in
  let initialStableOperations :=
    match info_initialAccount infoInput with
    | Some initialAccount => initial_operations initialAccount
    | None => []
    end in
  bind (await_all address) (λ '(apiAccount, blockHeight),
    if String.eqb (account_type apiAccount) "empty" then
      bind newDate (λ lastSyncDate, ret (Minimal blockHeight lastSyncDate))
    else if negb (String.eqb (account_type apiAccount) "user") then
      ret (InvariantFailed "unsupported account of type ")
    else
      bind (fetchAllTransactions getAccountOperations address None)
        (λ apiOperations,
          let tezosResources := mkTezosResources (account_revealed apiAccount) in
          let balance := account_balance apiAccount in
          let subAccounts := [] in
          let results :=
            txToOp encodeOperationId address (info_id infoInput)
              <$> apiOperations in
          if existsb isTypeError results then ret Throws
          else
            let newOps := omap defined results in
            let operations := mergeOps initialStableOperations newOps in
            bind newDate (λ lastSyncDate,
              ret (Full {|
                operations := operations;
                balance := balance;
                subAccounts := subAccounts;
                spendableBalance := balance;
                blockHeight := blockHeight;
                lastSyncDate := lastSyncDate;
                tezosResources := tezosResources
              |})))).

End WithDate.

End Shape.

(** ** Notions used to state further properties *)

Module Notions.

Import JS Classifier.

(** The kinds that the [switch] of [txToOp] has a case for. *)
Definition supportedKinds : list string :=
  ["transaction"; "delegation"; "reveal"; "migration"; "origination";
   "activation"].

(** The amounts of a raw transaction that the classifier reads, each read as
    0 when missing, are not negative. *)
Definition amountsNotNegative (tx : APIOperation) : Prop :=
  0 ≤ default 0 (tx_amount tx)
  ∧ 0 ≤ default 0 (tx_contractBalance tx)
  ∧ 0 ≤ default 0 (tx_balance tx)
  ∧ 0 ≤ default 0 (tx_bakerFee tx)
  ∧ 0 ≤ default 0 (tx_allocationFee tx)
  ∧ 0 ≤ default 0 (tx_storageFee tx).

(** The paging stopped at this fetch for want of a cursor: its page is not
    empty and the last item of the page has no id. *)
Definition cursorLost (f : Fetcher.Fetch) : bool :=
  negb (length (Fetcher.page f) =? 0)%nat
  && negb (truthy_num (Fetcher.lastItemId (Fetcher.page f))).

(** The locals of [reconciliateSubAccounts] when [map] starts, in a call
    with an initial account: the flag and the note of lines 229-235. *)
Definition initialLocals (h : Reconciler.heap) (tokenAccounts : Reconciler.loc)
    (account : Reconciler.Account) : Reconciler.Locals :=
  match Reconciler.subAccounts account with
  | Some prev =>
      if bool_decide (length (Reconciler.arrayAt h tokenAccounts)
                      ≠ length (Reconciler.arrayAt h prev))
      then Reconciler.mkLocals true ["length differ"]
      else Reconciler.mkLocals false []
  | None => Reconciler.mkLocals false []
  end.

(** The note that the reconciler records for a derived sub-account it has
    found no previous one for, and for one it has found changed in a
    property. *)
Definition newNote (h : Reconciler.heap) (ta : Reconciler.loc) : string :=
  "new token account " +:+ Reconciler.show (Reconciler.idOf h ta).

Definition changedNote (h : Reconciler.heap) (k : string) (ta : Reconciler.loc)
  : string :=
  "field " +:+ k +:+ " changed for " +:+ Reconciler.show (Reconciler.idOf h ta).

(** An array that [map] has made: its address was free in the store. *)
Definition freshIn (h : Reconciler.heap) (l : Reconciler.loc) : Prop :=
  l ∉ dom (Reconciler.arrays h).

End Notions.

(** ** More sample inputs *)

Module Samples.

Import JS Classifier Reconciler Shape.

(** A raw transaction of a kind other than a transfer, applied, with a
    baker fee of 1. *)
Definition raw (type : string) (newDelegate originatedContract : option string)
    (balanceChange contractBalance balance : option Z) : APIOperation :=
  {| tx_id := Some 43;
     tx_type := type;
     tx_status := Some "applied";
     tx_hash := Some "op2";
     tx_initiator := None;
     tx_sender := Some (mkParty "A");
     tx_target := None;
     tx_amount := None;
     tx_newDelegate := mkParty <$> newDelegate;
     tx_balanceChange := balanceChange;
     tx_contractBalance := contractBalance;
     tx_originatedContract := mkParty <$> originatedContract;
     tx_balance := balance;
     tx_allocationFee := Some 2;
     tx_bakerFee := Some 1;
     tx_storageFee := Some 3;
     tx_level := Some 8;
     tx_block := Some "blk2";
     tx_timestamp := Some "2021-01-02T00:00:00Z" |}.

Definition delegation : APIOperation :=
  raw "delegation" (Some "baker") None None None None.

Definition reveal : APIOperation := raw "reveal" None None None None None.

Definition migration : APIOperation :=
  raw "migration" None None (Some (-30)) None None.

Definition origination : APIOperation :=
  raw "origination" None (Some "KT1") None (Some 70) None.

Definition brokenOrigination : APIOperation :=
  raw "origination" None None None (Some 70) None.

Definition activation : APIOperation :=
  raw "activation" None None None None (Some 10).

(** Transfers between B and C, from B to the account A, and a failed one
    from A to B. *)
Definition unrelated : APIOperation :=
  Examples.transfer (Some "applied") None (Some "B") (Some "C") (Some 5) (Some 1).

Definition incoming : APIOperation :=
  Examples.transfer (Some "applied") None (Some "B") (Some "A") (Some 50) (Some 1).

Definition incoming_op : Operation :=
  {| op_id := "acc-op-IN";
     op_hash := Some "op";
     op_type := IN;
     op_value := 50;
     op_fee := 1;
     op_senders := ["B"];
     op_recipients := ["A"];
     op_blockHeight := Some 7;
     op_blockHash := Some "blk";
     op_accountId := "acc";
     op_date := Some "2021-01-01T00:00:00Z";
     op_extra := tt;
     op_hasFailed := false |}.

Definition failedOutgoing : APIOperation :=
  Examples.transfer (Some "failed") None (Some "A") (Some "B") (Some 100) (Some 1).

(** A store in which the derived sub-account (at 2, in the array at 11) has
    an id that the previous one (at 1, in the array at 10) has not. *)
Definition newTokenStore : heap :=
  {| objects :=
       list_to_map
         [(1%positive, [("id", VString "tz+token"); ("balance", VNumber 5)]);
          (2%positive, [("id", VString "tz+other"); ("balance", VNumber 5)])];
     arrays :=
       list_to_map [(10%positive, [1%positive]); (11%positive, [2%positive])] |}.

(** An initial account without sub-account list. *)
Definition bareAccount : Account := mkAccount None.

(** Indexers over a counter of requests: of an empty account, of a contract,
    of a user account with a balance of 1000, all at block 100; a user's
    history with an origination that has no contract; a clock; and a
    stand-in for [mergeOps] that puts the new operations first. *)
Definition emptyAccount (address : string) (w : nat) : (APIAccount * Z) * nat :=
  ((mkAPIAccount "empty" 0 None, 100), S w).

Definition contractAccount (address : string) (w : nat)
  : (APIAccount * Z) * nat :=
  ((mkAPIAccount "contract" 0 None, 100), S w).

Definition userAccount (address : string) (w : nat) : (APIAccount * Z) * nat :=
  ((mkAPIAccount "user" 1000 (Some true), 100), S w).

Definition brokenIndexer (address : string) (lastId : option Z) (w : nat)
  : list APIOperation * nat :=
  match lastId with
  | None => ([Examples.outgoing; brokenOrigination], S w)
  | Some _ => ([], S w)
  end.

Definition clock (w : nat) : Z * nat := (1609459200000, w).

Definition newestFirst (old new : list Operation) : list Operation :=
  new ++ old.

Definition firstSync : InfoInput :=
  {| info_address := "A"; info_id := "acc"; info_initialAccount := None |}.

End Samples.

(** * Properties *)

(** ** Truthiness and strict equality *)

Section JSFacts.

Import JS.

Lemma str_seq_true (x : option string) (s : string) :
  str_seq x s = true ↔ x = Some s.
Proof.
  destruct x as [y|]; simpl.
  - rewrite String.eqb_eq. split; congruence.
  - split; discriminate.
Qed.

Lemma str_sne_true (x : option string) (s : string) :
  str_sne x s = true ↔ x ≠ Some s.
Proof.
  unfold str_sne. rewrite negb_true_iff, <- not_true_iff_false.
  by rewrite str_seq_true.
Qed.

Lemma str_sne_false (x : option string) (s : string) :
  str_sne x s = false ↔ x = Some s.
Proof.
  unfold str_sne. by rewrite negb_false_iff, str_seq_true.
Qed.

(** On integers [x || 0] is [x], or [0] when [x] is missing. *)
Lemma num_or_zero (x : option Z) : num_or x 0 = default 0 x.
Proof.
  unfold num_or, truthy_num. destruct x as [n|]; simpl; [|done].
  destruct (Z.eqb_spec n 0); simpl; congruence.
Qed.

End JSFacts.

(** ** The classifier *)

Section ClassifierFacts.

Import JS Classifier.

Variable encodeOperationId : string → option string → OperationType → string.

Abbreviation txToOp := (Classifier.txToOp encodeOperationId).
Abbreviation settle := (Classifier.settle encodeOperationId).

(** An operation comes out of [txToOp] only through the [break] of the
    [switch] followed by the code after it. *)
Lemma txToOp_Emitted address accountId tx op :
  txToOp address accountId tx = Emitted op →
  ∃ c, classify address tx = Break c ∧ settle accountId tx c = Emitted op.
Proof.
  unfold Classifier.txToOp. destruct (classify address tx); [eauto|done..].
Qed.

(** What the code after the [switch] puts in the operation. *)
Lemma settle_Emitted accountId tx c op :
  settle accountId tx c = Emitted op →
  ¬ (c_type c = IN ∧ principal c = 0)
  ∧ op_type op = c_type c
  ∧ op_fee op = computeFee tx
  ∧ op_value op = (if bool_decide (c_type c ≠ IN)
                   then principal c + computeFee tx else principal c)
  ∧ op_senders op = c_senders c
  ∧ op_recipients op = c_recipients c
  ∧ op_hasFailed op = hasFailed tx.
Proof.
  unfold Classifier.settle, eq, plus.
  destruct (bool_decide (c_type c = IN) && (principal c =? 0)) eqn:E; [done|].
  intros [= <-]; simpl. split_and!; try done.
  intros [Ht Hv]. rewrite Ht, Hv in E. done.
Qed.

Lemma settle_discards accountId tx c :
  c_type c = IN → principal c = 0 → settle accountId tx c = Undefined None.
Proof.
  intros Ht Hv. unfold Classifier.settle, eq. by rewrite Ht, Hv.
Qed.

Lemma settle_emits accountId tx c :
  ¬ (c_type c = IN ∧ principal c = 0) →
  ∃ op, settle accountId tx c = Emitted op.
Proof.
  intros H. unfold Classifier.settle, eq.
  destruct (bool_decide (c_type c = IN) && (principal c =? 0)) eqn:E; [|eauto].
  apply andb_true_iff in E as [Ht%bool_decide_eq_true Hv%Z.eqb_eq]. tauto.
Qed.

(** The senders and the recipients that the [switch] leaves are
    one-element arrays. *)
Lemma classify_singletons address tx c :
  classify address tx = Break c →
  length (c_senders c) = 1%nat ∧ length (c_recipients c) = 1%nat.
Proof.
  unfold classify. intros H.
  repeat case_match; simplify_eq; done.
Qed.

(** The principal of each kind that carries one. *)
Lemma classify_migration address tx :
  tx_type tx = "migration" →
  ∃ c, classify address tx = Break c
       ∧ principal c = Z.abs (default 0 (tx_balanceChange tx))
       ∧ c_type c = (if num_lt (tx_balanceChange tx) 0 then OUT else IN).
Proof.
  intros H. unfold classify. rewrite H; simpl.
  eexists; split_and!; [done| |done].
  unfold principal; simpl. by rewrite num_or_zero.
Qed.

Lemma classify_activation address tx :
  tx_type tx = "activation" →
  ∃ c, classify address tx = Break c
       ∧ principal c = default 0 (tx_balance tx) ∧ c_type c = IN.
Proof.
  intros H. unfold classify. rewrite H; simpl.
  eexists; split_and!; [done| |done].
  unfold principal; simpl. by rewrite num_or_zero.
Qed.

Lemma classify_origination address tx contract :
  tx_type tx = "origination" →
  tx_originatedContract tx = Some contract →
  ∃ c, classify address tx = Break c
       ∧ principal c = default 0 (tx_contractBalance tx) ∧ c_type c = CREATE.
Proof.
  intros H Hc. unfold classify. rewrite H, Hc; simpl.
  eexists; split_and!; [done| |done].
  unfold principal; simpl. by rewrite num_or_zero.
Qed.

(** The two transfer shapes that only pay fees leave the [switch] with
    type FEES and no value. *)
Lemma classify_fees_only address tx :
  tx_type tx = "transaction" →
  (party_address <$> tx_sender tx = Some address
   ∧ party_address <$> tx_target tx = Some address)
  ∨ (party_address <$> tx_sender tx ≠ Some address
     ∧ party_address <$> tx_target tx ≠ Some address
     ∧ party_address <$> tx_initiator tx = Some address) →
  ∃ c, classify address tx = Break c
       ∧ c_type c = FEES ∧ c_maybeValue c = None.
Proof.
  intros Hk H. unfold classify. rewrite Hk; simpl.
  destruct H as [[Hf Ht]|(Hf & Ht & Hi)].
  - apply str_seq_true in Hf as Hf', Ht as Ht'.
    apply str_sne_false in Hf, Ht.
    rewrite Hf, Ht, Hf', Ht'. simpl. eauto.
  - apply str_sne_true in Hf, Ht. apply str_sne_false in Hi.
    rewrite Hf, Ht, Hi. simpl. rewrite orb_true_r. eauto.
Qed.

(** The worked examples: an outgoing transfer, an incoming one, and an
    undelegation. *)
Example outgoing_transfer :
  Classifier.txToOp Examples.encodeOperationId "A" "acc" Examples.outgoing
  = Emitted Examples.outgoing_op.
Proof. reflexivity. Qed.

Example incoming_transfer :
  ∃ op,
    Classifier.txToOp Examples.encodeOperationId "A" "acc"
      (Examples.transfer (Some "applied") None (Some "B") (Some "A")
                         (Some 50) None)
    = Emitted op
    ∧ op_type op = IN ∧ op_value op = 50 ∧ op_fee op = 0
    ∧ op_senders op = ["B"] ∧ op_recipients op = ["A"].
Proof. eexists. split; [reflexivity|done]. Qed.

Example undelegation :
  ∃ op,
    Classifier.txToOp Examples.encodeOperationId "A" "acc"
      (mkAPIOperation (Some 1) "delegation" None (Some "op")
         None (Some (mkParty "A")) None None None None None None None
         None None None None None None)
    = Emitted op
    ∧ op_type op = UNDELEGATE
    ∧ op_senders op = ["A"] ∧ op_recipients op = [""].
Proof. eexists. split; [reflexivity|done]. Qed.

(** C1.  Whenever [txToOp] emits an operation, the [switch] was left by
    [break] with some type and principal ([maybeValue || 0]); the
    operation has that type and the fee of lines 174-178; when the type is
    not IN its value is the principal plus that fee, and when the type is
    IN its value is the principal alone. *)
Theorem txToOp_value address accountId tx op :
  txToOp address accountId tx = Emitted op →
  ∃ c, classify address tx = Break c
       ∧ op_type op = c_type c
       ∧ op_fee op = computeFee tx
       ∧ (op_type op ≠ IN → op_value op = principal c + op_fee op)
       ∧ (op_type op = IN → op_value op = principal c).
Proof.
  intros (c & Hc & Hs)%txToOp_Emitted.
  apply settle_Emitted in Hs as (_ & Ht & Hf & Hv & _).
  exists c. rewrite Ht, Hf, Hv. split_and!; try done.
  - intros Hne. by rewrite bool_decide_eq_true_2.
  - intros He. by rewrite bool_decide_eq_false_2 by (by intros ?).
Qed.

(** C2.  Whenever [txToOp] emits an operation, its fee is the baker fee
    alone when the transaction has failed (its status is set and is not
    "applied", as "failed" is), and the baker fee plus the allocation fee
    plus the storage fee when it has not; a missing fee counts as 0. *)
Theorem txToOp_fee address accountId tx op :
  txToOp address accountId tx = Emitted op →
  (tx_status tx = Some "failed" → hasFailed tx = true)
  ∧ op_hasFailed op = hasFailed tx
  ∧ (hasFailed tx = true → op_fee op = default 0 (tx_bakerFee tx))
  ∧ (hasFailed tx = false →
     op_fee op = default 0 (tx_bakerFee tx)
                 + default 0 (tx_allocationFee tx)
                 + default 0 (tx_storageFee tx)).
Proof.
  intros (c & Hc & Hs)%txToOp_Emitted.
  apply settle_Emitted in Hs as (_ & _ & Hf & _ & _ & _ & Hh).
  rewrite Hf, Hh. unfold computeFee, plus. rewrite !num_or_zero.
  split_and!; try done.
  - intros Hst. unfold hasFailed. by rewrite Hst.
  - by intros ->.
  - by intros ->.
Qed.

(** C5.  A transfer whose sender and target are both the account, or
    whose sender and target are both not the account while its initiator
    is, leaves the [switch] with type FEES and principal 0, and [txToOp]
    emits for it an operation of type FEES whose value is its fee. *)
Theorem txToOp_fees_only address accountId tx :
  tx_type tx = "transaction" →
  (party_address <$> tx_sender tx = Some address
   ∧ party_address <$> tx_target tx = Some address)
  ∨ (party_address <$> tx_sender tx ≠ Some address
     ∧ party_address <$> tx_target tx ≠ Some address
     ∧ party_address <$> tx_initiator tx = Some address) →
  ∃ c op, classify address tx = Break c
          ∧ c_type c = FEES
          ∧ principal c = 0
          ∧ txToOp address accountId tx = Emitted op
          ∧ op_type op = FEES
          ∧ op_value op = op_fee op.
Proof.
  intros Hk H.
  destruct (classify_fees_only address tx Hk H) as (c & Hc & Ht & Hv).
  assert (Hp : principal c = 0) by (unfold principal; by rewrite Hv).
  destruct (settle_emits accountId tx c) as [op Hop].
  { rewrite Ht. by intros [? _]. }
  exists c, op. unfold Classifier.txToOp. rewrite Hc.
  apply settle_Emitted in Hop as Hs.
  destruct Hs as (_ & Hty & Hf & Hval & _).
  split_and!; try done; [congruence|].
  rewrite Hval, Hf, Hp, bool_decide_eq_true_2; [done|congruence].
Qed.

(** C6.  A transfer that involves the account (as sender, target or
    initiator), has not failed and carries the amount 0 (or no amount) makes
    [txToOp] emit an operation of type FEES, hence of type neither IN nor
    OUT. *)
Theorem txToOp_zero_amount address accountId tx :
  tx_type tx = "transaction" →
  party_address <$> tx_sender tx = Some address
  ∨ party_address <$> tx_target tx = Some address
  ∨ party_address <$> tx_initiator tx = Some address →
  default 0 (tx_amount tx) = 0 →
  hasFailed tx = false →
  ∃ op, txToOp address accountId tx = Emitted op
        ∧ op_type op = FEES
        ∧ op_type op ≠ IN
        ∧ op_type op ≠ OUT.
Proof.
  intros Hk Hrel Hamount Hfail.
  assert (∃ c, classify address tx = Break c ∧ c_type c = FEES)
    as (c & Hc & Ht).
  { unfold classify. rewrite Hk; simpl.
    rewrite Hfail, num_or_zero, Hamount; simpl.
    destruct (str_sne (party_address <$> tx_sender tx) address) eqn:Ef,
             (str_sne (party_address <$> tx_target tx) address) eqn:Et,
             (str_sne (party_address <$> tx_initiator tx) address) eqn:Ei;
      simpl; rewrite ?orb_true_r;
      try (destruct (_ && _ || _); eexists; split; reflexivity);
      try (eexists; split; reflexivity).
    apply str_sne_true in Ef, Et, Ei. tauto. }
  destruct (settle_emits accountId tx c) as [op Hop].
  { rewrite Ht. by intros [? _]. }
  exists op. unfold Classifier.txToOp. rewrite Hc.
  apply settle_Emitted in Hop as Hs. destruct Hs as (_ & Hty & _).
  rewrite Hty, Ht. done.
Qed.

(** C7.  [txToOp] never emits an operation of type IN whose value is 0:
    whenever the [switch] is left with type IN and principal 0, [txToOp]
    returns [undefined], without a warning. *)
Theorem txToOp_no_zero_IN address accountId tx :
  (∀ op, txToOp address accountId tx = Emitted op →
         ¬ (op_type op = IN ∧ op_value op = 0))
  ∧ (∀ c, classify address tx = Break c →
          c_type c = IN → principal c = 0 →
          txToOp address accountId tx = Undefined None).
Proof.
  split.
  - intros op (c & Hc & Hs)%txToOp_Emitted.
    apply settle_Emitted in Hs as (Hn & Ht & _ & Hv & _).
    intros [HIN Hz]. apply Hn. rewrite <- Ht. split; [done|].
    rewrite Hv, bool_decide_eq_false_2 in Hz; [done|].
    rewrite <- Ht. by intros ?.
  - intros c Hc Ht Hv. unfold Classifier.txToOp. rewrite Hc.
    by apply settle_discards.
Qed.

(** C8.  A transfer whose target is the account, whose sender is not, and
    which has failed (its status is set and is not "applied") is discarded,
    whatever its amount: the [switch] is left with type IN and no value, the
    amount not being read, and [txToOp] returns [undefined] without a
    warning. *)
Theorem txToOp_failed_incoming address accountId tx :
  tx_type tx = "transaction" →
  party_address <$> tx_target tx = Some address →
  party_address <$> tx_sender tx ≠ Some address →
  hasFailed tx = true →
  (∃ c, classify address tx = Break c
        ∧ c_type c = IN ∧ c_maybeValue c = None)
  ∧ txToOp address accountId tx = Undefined None.
Proof.
  intros Hk Ht Hf Hfail.
  assert (∃ c, classify address tx = Break c
               ∧ c_type c = IN ∧ c_maybeValue c = None) as Hc.
  { unfold classify. rewrite Hk; simpl.
    apply str_seq_true in Ht as Ht'. apply str_sne_false in Ht.
    apply str_sne_true in Hf as Hf'.
    assert (str_seq (party_address <$> tx_sender tx) address = false) as Hf''.
    { apply not_true_iff_false. by rewrite str_seq_true. }
    rewrite Ht, Ht', Hf', Hf'', Hfail. simpl. eauto. }
  split; [done|].
  destruct Hc as (c & Hc & Hty & Hv).
  unfold Classifier.txToOp. rewrite Hc.
  apply settle_discards; [done|]. unfold principal. by rewrite Hv.
Qed.

(** C9.  Every operation that [txToOp] emits has exactly one sender and
    exactly one recipient. *)
Theorem txToOp_one_sender_one_recipient address accountId tx op :
  txToOp address accountId tx = Emitted op →
  length (op_senders op) = 1%nat ∧ length (op_recipients op) = 1%nat.
Proof.
  intros (c & Hc & Hs)%txToOp_Emitted.
  apply settle_Emitted in Hs as (_ & _ & _ & _ & Hsd & Hrc & _).
  rewrite Hsd, Hrc. by eapply classify_singletons.
Qed.

End ClassifierFacts.

(** ** The paginated fetcher *)

Section FetcherFacts.

Import JS Classifier Fetcher.

Context {World : Type}.
Variable getAccountOperations :
  string → option Z → World → list APIOperation * World.

Abbreviation doWhile := (Fetcher.doWhile getAccountOperations).
Abbreviation fetchAllTransactions :=
  (Fetcher.fetchAllTransactions getAccountOperations).
Abbreviation answered := (Fetcher.answered getAccountOperations).

(** The last item of the accumulated list is the last item of the page just
    appended, when that page is not empty. *)
Lemma lastItemId_app (txs r : list APIOperation) :
  r ≠ [] → lastItemId (txs ++ r) = lastItemId r.
Proof.
  intros Hr. unfold lastItemId.
  destruct (exists_last Hr) as (r' & x & ->).
  by rewrite app_assoc, !last_snoc.
Qed.

(** The bounds of a run that makes a single fetch: either that fetch stops
    the paging, or the counter allowed no more. *)
Lemma single_fetch_bounds (f : @Fetch) (n : nat) :
  stopsPaging f ∨ n = 0%nat →
  (1 ≤ length [f] ≤ S n)%nat
  ∧ (∀ i g, [f] !! i = Some g → stopsPaging g → S i = length [f])
  ∧ ((∀ g, g ∈ [f] → ¬ stopsPaging g) → length [f] = S n).
Proof.
  intros H. split_and!; simpl; try lia.
  - by intros [|i] g.
  - intros Hall. destruct H as [Hs| ->]; [|done].
    destruct (Hall f); [by left|done].
Qed.

(** One iteration of the loop, with the monad unfolded. *)
Lemma doWhile_step n address lastId txs s :
  doWhile (S n) address lastId txs s =
  let r := fst (getAccountOperations address lastId (world s)) in
  let w := snd (getAccountOperations address lastId (world s)) in
  let s1 := mkState w (fetches s ++ [mkFetch lastId r]) (logs s) in
  if (length r =? 0)%nat then (txs, s1)
  else if negb (truthy_num (lastItemId (txs ++ r)))
  then (txs ++ r,
        mkState w (fetches s1) (logs s ++ [("tezos", "id missing!")]))
  else match n with
       | O => (txs ++ r, s1)
       | S _ => doWhile n address (lastItemId (txs ++ r)) (txs ++ r) s1
       end.
Proof.
  cbn [Fetcher.doWhile]. unfold bind, await_getAccountOperations, log, ret.
  destruct (getAccountOperations address lastId (world s)) as [r w]; simpl.
  destruct (length r =? 0)%nat; [done|].
  destruct (negb (truthy_num (lastItemId (txs ++ r)))); [done|].
  by destruct n.
Qed.

(** The case of a run that makes one fetch, [Eg] being the indexer's
    answer: all but the bounds. *)
Ltac single_fetch Eg :=
  split; [done|];
  split; [by simpl; rewrite ?app_nil_r|];
  split; [by simpl; rewrite Eg|];
  split; [done|];
  apply single_fetch_bounds.

(** What one run of the loop does, entered with a counter of [S n]: the
    fetches [new] it adds, and what it returns. *)
Lemma doWhile_run n address lastId txs s :
  ∃ new,
    fetches (snd (doWhile (S n) address lastId txs s)) = fetches s ++ new
    ∧ fst (doWhile (S n) address lastId txs s) = txs ++ concat (page <$> new)
    ∧ answered address (world s) new
    ∧ chained lastId new
    ∧ (1 ≤ length new ≤ S n)%nat
    ∧ (∀ i f, new !! i = Some f → stopsPaging f → S i = length new)
    ∧ ((∀ f, f ∈ new → ¬ stopsPaging f) → length new = S n).
Proof.
  revert lastId txs s. induction n as [|n IH]; intros lastId txs s;
    rewrite doWhile_step; cbv zeta;
    destruct (getAccountOperations address lastId (world s)) as [r w] eqn:Eg;
    cbn [fst snd];
    (destruct r as [|x r]; cbn [length Nat.eqb];
     [|destruct (truthy_num (lastItemId (txs ++ x :: r))) eqn:Et; cbn [negb]]).
  - (* counter at 1, empty page *)
    exists [mkFetch lastId []]. single_fetch Eg. left. by left.
  - (* counter at 1, cursor present: the counter stops the loop *)
    exists [mkFetch lastId (x :: r)]. single_fetch Eg. by right.
  - (* counter at 1, cursor missing *)
    exists [mkFetch lastId (x :: r)]. single_fetch Eg. left. right.
    unfold cursorMissing; simpl. by rewrite <- (lastItemId_app txs).
  - (* counter above 1, empty page *)
    exists [mkFetch lastId []]. single_fetch Eg. left. by left.
  - (* counter above 1, cursor present: the loop goes on *)
    set (s1 := mkState w (fetches s ++ [mkFetch lastId (x :: r)]) (logs s)).
    destruct (IH (lastItemId (txs ++ x :: r)) (txs ++ x :: r) s1)
      as (new & Hf & Ho & Hans & Hch & Hlen & Hstop & Hall).
    exists (mkFetch lastId (x :: r) :: new).
    rewrite Hf, Ho. cbn [fmap list_fmap concat page length].
    split_and!.
    + subst s1; simpl. by rewrite <- app_assoc.
    + by rewrite <- !app_assoc.
    + simpl. rewrite Eg; simpl. by split.
    + simpl. split; [done|]. by rewrite <- (lastItemId_app txs).
    + lia.
    + lia.
    + intros [|i] f Hi Hs; simpl in Hi.
      * injection Hi as <-. exfalso.
        rewrite lastItemId_app in Et by done.
        destruct Hs as [He|Hm]; [done|].
        unfold cursorMissing in Hm; simpl in Hm. congruence.
      * f_equal. by eapply Hstop.
    + intros H. f_equal. apply Hall. intros f Hin. apply H. by right.
  - (* counter above 1, cursor missing *)
    exists [mkFetch lastId (x :: r)]. single_fetch Eg. left. right.
    unfold cursorMissing; simpl. by rewrite <- (lastItemId_app txs).
Qed.

(** The loop at work: an indexer whose pages never end is asked 20 times,
    one that has a single page is asked twice, one whose items have no id is
    asked once. *)
Example fetch_endless :
  let run := Fetcher.fetchAllTransactions Examples.endlessIndexer
               "A" None (start tt) in
  length (fetches (snd run)) = 20%nat ∧ length (fst run) = 20%nat.
Proof. vm_compute. done. Qed.

Example fetch_small :
  let run := Fetcher.fetchAllTransactions Examples.smallIndexer
               "A" None (start 0%nat) in
  fst run = [Examples.outgoing; Examples.selfTransfer]
  ∧ (request <$> fetches (snd run)) = [None; Some 42]
  ∧ world (snd run) = 2%nat.
Proof. vm_compute. done. Qed.

Example fetch_no_id :
  let run := Fetcher.fetchAllTransactions Examples.noIdIndexer
               "A" None (start tt) in
  length (fst run) = 1%nat
  ∧ length (fetches (snd run)) = 1%nat
  ∧ logs (snd run) = [("tezos", "id missing!")].
Proof. vm_compute. done. Qed.

(** C4.  A call of [fetchAllTransactions] returns (the function is total),
    having made between 1 and 20 fetches, each answered by the indexer, the
    first with the cursor given and each later one with the id of the last
    item received.  What it returns is the concatenation of the pages
    fetched.  A fetch whose page is empty, or the last item of whose page
    has no id (a missing cursor, [!lastId]), is the last one made; and when
    no fetch is of that kind, exactly 20 fetches are made. *)
Theorem fetchAllTransactions_pages address lastId w :
  let run := fetchAllTransactions address lastId (start w) in
  fst run = concat (page <$> fetches (snd run))
  ∧ answered address w (fetches (snd run))
  ∧ chained lastId (fetches (snd run))
  ∧ (1 ≤ length (fetches (snd run)) ≤ 20)%nat
  ∧ (∀ i f, fetches (snd run) !! i = Some f → stopsPaging f →
            S i = length (fetches (snd run)))
  ∧ ((∀ f, f ∈ fetches (snd run) → ¬ stopsPaging f) →
     length (fetches (snd run)) = 20%nat).
Proof.
  unfold Fetcher.fetchAllTransactions.
  destruct (doWhile_run 19 address lastId [] (start w))
    as (new & Hf & Ho & Hans & Hch & Hlen & Hstop & Hall).
  change (fetches (start w)) with (@nil Fetch) in Hf.
  change (world (start w)) with w in Hans.
  rewrite app_nil_l in Hf, Ho. cbv zeta. rewrite Hf, Ho. done.
Qed.

End FetcherFacts.

(** ** The sub-account reconciler *)

Section ReconcilerFacts.

Import Reconciler.

Implicit Types (h : heap) (s : Locals) (a p ta : loc).

(** The lookup by id returns a previous sub-account that has the id. *)
Lemma findById_Some h prev id p :
  findById h prev id = Some p → p ∈ prev ∧ idOf h p = id.
Proof.
  unfold findById, idOf. induction prev as [|a prev IH]; simpl; [done|].
  case_bool_decide as Ha.
  - intros [= <-]. split; [by left|done].
  - intros [Hin Hid]%IH. split; [by right|done].
Qed.

(** When ids are keys, the lookup returns the one sub-account with the
    id. *)
Lemma findById_keyed h prev p :
  keyedById h prev → p ∈ prev → findById h prev (idOf h p) = Some p.
Proof.
  unfold keyedById, findById, idOf.
  induction prev as [|a prev IH]; simpl; intros Hnd Hin.
  - by apply elem_of_nil in Hin.
  - apply NoDup_cons in Hnd as [Hnotin Hnd].
    case_bool_decide as Ha.
    + apply elem_of_cons in Hin as [->|Hin]; [done|].
      exfalso. apply Hnotin. rewrite Ha.
      apply (list_elem_of_fmap_2 (λ a, get (objectAt h a) "id")), Hin.
    + apply elem_of_cons in Hin as [->|Hin]; [done|]. by apply IH.
Qed.

(** The [for ... in] loop finds no changed field in sub-accounts that hold
    the same value for every property. *)
Lemma firstChangedField_None h p ta :
  shallowEqual h p ta →
  firstChangedField (objectAt h p) (objectAt h ta) = None.
Proof.
  intros Heq. unfold firstChangedField.
  assert (∀ l : object,
            find (λ kv, strict_ne (get (objectAt h p) kv.1)
                                  (get (objectAt h ta) kv.1)) l = None)
    as ->; [|done].
  induction l as [|kv l IH]; simpl; [done|].
  unfold strict_ne at 1. rewrite bool_decide_eq_false_2; [done|].
  intros Hne. apply Hne, Heq.
Qed.

(** The callback returns the previous sub-account it has found, and leaves
    the locals alone, when no property has changed. *)
Lemma reconcileOne_unchanged h prev p ta s :
  findById h prev (idOf h ta) = Some p →
  shallowEqual h p ta →
  reconcileOne h (Some prev) ta s = (p, s).
Proof.
  intros Hfind Heq. unfold reconcileOne. fold (idOf h ta). simpl.
  rewrite Hfind. case_bool_decide; [|done].
  by rewrite firstChangedField_None.
Qed.

(** What the callback returns does not depend on the locals. *)
Lemma reconcileOne_fst h prevs ta s s' :
  fst (reconcileOne h prevs ta s) = fst (reconcileOne h prevs ta s').
Proof. unfold reconcileOne. by repeat case_match. Qed.

(** [map] returns, item by item, what the callback returns. *)
Lemma mapItems_lookup h prevs tas s i ta :
  tas !! i = Some ta →
  fst (mapItems h prevs tas s) !! i = Some (fst (reconcileOne h prevs ta s)).
Proof.
  revert s i. induction tas as [|t tas IH]; intros s i Hi; [done|].
  simpl. destruct (reconcileOne h prevs t s) as [r s1] eqn:E1.
  destruct (mapItems h prevs tas s1) as [rs s2] eqn:E2.
  destruct i as [|i]; simpl in *.
  - injection Hi as ->. by rewrite E1.
  - specialize (IH s1 i Hi). rewrite E2 in IH. simpl in IH.
    rewrite IH. f_equal. apply reconcileOne_fst.
Qed.

Lemma reconcileOne_inStep h prevs ta s :
  inStep s → inStep (snd (reconcileOne h prevs ta s)).
Proof.
  unfold reconcileOne, inStep. intros Hs.
  repeat case_match; simpl; try done;
    (split; [done|]; intros Hnil; by apply app_nil in Hnil as [_ ?]).
Qed.

Lemma mapItems_inStep h prevs tas s :
  inStep s → inStep (snd (mapItems h prevs tas s)).
Proof.
  revert s. induction tas as [|t tas IH]; intros s Hs; [done|].
  simpl. destruct (reconcileOne h prevs t s) as [r s1] eqn:E1.
  destruct (mapItems h prevs tas s1) as [rs s2] eqn:E2. simpl.
  specialize (IH s1). rewrite E2 in IH. apply IH.
  pose proof (reconcileOne_inStep h prevs t s Hs) as H. by rewrite E1 in H.
Qed.

(** Reading the store after [map] has made its array. *)
Lemma newArray_fresh h items :
  arrayAt (snd (newArray h items)) (fst (newArray h items)) = items.
Proof.
  unfold newArray, arrayAt; simpl. by rewrite lookup_total_insert_eq.
Qed.

Lemma newArray_old h items l :
  arrayAt h l ≠ [] → arrayAt (snd (newArray h items)) l = arrayAt h l.
Proof.
  unfold newArray, arrayAt; simpl. intros Hne.
  rewrite lookup_total_insert_ne; [done|].
  intros <-. apply Hne.
  rewrite lookup_total_alt, (not_elem_of_dom_1 (arrays h)); [done|].
  apply is_fresh.
Qed.

(** The reconciler at work.  Nothing has changed: the previous array is
    returned.  A balance has changed: a new array holds the derived
    sub-account, and a note says so.  Two previous sub-accounts share an id:
    the lookup stops at the first. *)
Example reconcile_unchanged :
  let out := reconciliateSubAccounts Examples.unchangedStore 11%positive
               (Some Examples.previousAccount) in
  returned out = 10%positive
  ∧ arrayAt (store out) (returned out) = [1%positive]
  ∧ notes out = [].
Proof. vm_compute. done. Qed.

Example reconcile_changed :
  let out := reconciliateSubAccounts Examples.changedStore 11%positive
               (Some Examples.previousAccount) in
  returned out = 12%positive
  ∧ arrayAt (store out) (returned out) = [2%positive]
  ∧ notes out = ["field balance changed for tz+token"].
Proof. vm_compute. done. Qed.

Example reconcile_shared_id :
  let out := reconciliateSubAccounts Examples.sharedIdStore 11%positive
               (Some Examples.previousAccount) in
  findById Examples.sharedIdStore [1%positive; 3%positive]
           (VString "tz+token") = Some 1%positive
  ∧ arrayAt (store out) (returned out) = [2%positive]
  ∧ notes out = ["length differ"; "field balance changed for tz+token"].
Proof. vm_compute. done. Qed.

(** Without a previous account the derived list is copied. *)
Lemma reconciliateSubAccounts_first_sync h tokenAccounts :
  let out := reconciliateSubAccounts h tokenAccounts None in
  arrayAt (store out) (returned out) = arrayAt h tokenAccounts
  ∧ notes out = [].
Proof.
  simpl. split; [|done].
  apply (newArray_fresh h (arrayAt h tokenAccounts)).
Qed.

(** C3.  In a call with a previous account that has a sub-account list
    [prev]:
    - a derived sub-account [ta] is returned as the previous sub-account [p]
      that the lookup by id finds for it, when [ta] holds the same value as
      [p] for every property;
    - when ids are keys of the previous list, as the data model has them,
      that is so for every previous sub-account [p] that has the id of [ta]
      and the same value as [ta] for every property;
    - when no note was recorded, the array returned is [prev] itself. *)
Theorem reconciliateSubAccounts_identity h tokenAccounts account prev :
  subAccounts account = Some prev →
  let out := reconciliateSubAccounts h tokenAccounts (Some account) in
  (∀ i ta p,
     arrayAt h tokenAccounts !! i = Some ta →
     findById h (arrayAt h prev) (idOf h ta) = Some p →
     shallowEqual h p ta →
     returnedAs out prev i p)
  ∧ (keyedById h (arrayAt h prev) →
     ∀ i ta p,
       arrayAt h tokenAccounts !! i = Some ta →
       p ∈ arrayAt h prev →
       idOf h p = idOf h ta →
       shallowEqual h p ta →
       returnedAs out prev i p)
  ∧ (notes out = [] → returned out = prev).
Proof.
  intros Hprev out.
  assert (∀ i ta p,
            arrayAt h tokenAccounts !! i = Some ta →
            findById h (arrayAt h prev) (idOf h ta) = Some p →
            shallowEqual h p ta →
            returnedAs out prev i p) as Hfound.
  { subst out. unfold reconciliateSubAccounts, returnedAs. rewrite Hprev.
    cbn [fmap option_fmap option_map].
    set (s0 := if bool_decide _ then _ else _).
    pose proof (mapItems_lookup h (Some (arrayAt h prev))
                  (arrayAt h tokenAccounts) s0) as Hlook.
    destruct (mapItems h (Some (arrayAt h prev)) (arrayAt h tokenAccounts) s0)
      as [items s] eqn:Em.
    simpl in Hlook.
    pose proof (newArray_fresh h items) as Hfresh.
    pose proof (newArray_old h items prev) as Hold.
    destruct (newArray h items) as [mapped h'] eqn:En.
    simpl in Hfresh, Hold.
    intros i ta p Hi Hfind Heq.
    specialize (Hlook i ta Hi).
    rewrite (reconcileOne_unchanged h _ p ta s0 Hfind Heq) in Hlook.
    simpl in Hlook.
    apply findById_Some in Hfind as [Hin _].
    assert (arrayAt h prev ≠ []) as Hne.
    { intros E. rewrite E in Hin. by apply elem_of_nil in Hin. }
    destruct (anySubAccountHaveChanged s); simpl.
    - rewrite Hfresh. split; [by eapply list_elem_of_lookup_2|done].
    - rewrite (Hold Hne). split; [done|]. by intros []. }
  split_and!.
  - done.
  - intros Hkey i ta p Hi Hin Hid Heq. apply (Hfound i ta p Hi); [|done].
    rewrite <- Hid. by apply findById_keyed.
  - subst out. unfold reconciliateSubAccounts. rewrite Hprev.
    cbn [fmap option_fmap option_map].
    set (s0 := if bool_decide _ then _ else _).
    assert (inStep s0) as Hs0.
    { subst s0. unfold inStep. by case_bool_decide. }
    pose proof (mapItems_inStep h (Some (arrayAt h prev))
                  (arrayAt h tokenAccounts) s0 Hs0) as Hstep.
    destruct (mapItems h (Some (arrayAt h prev)) (arrayAt h tokenAccounts) s0)
      as [items s] eqn:Em.
    simpl in Hstep.
    destruct (newArray h items) as [mapped h'] eqn:En.
    destruct (anySubAccountHaveChanged s) eqn:Ech; simpl; [|done].
    intros Hnotes. apply Hstep in Hnotes. congruence.
Qed.

End ReconcilerFacts.

(** ** Bitcoin: the estimate of the maximum spendable amount *)

Section BitcoinFacts.

Import JS Bitcoin.

Context {AccountLike Account WalletAccount : Type}.
Variable getMainAccount : AccountLike → option Account → Account.
Variable getWalletAccount : Account → WalletAccount.
Variable getAccountNetworkInfo : Account → NetworkInfo.
Variable estimateAccountMaxSpendable : WalletAccount → Z → BigNumber.

(** C10.  [estimateMaxSpendable] returns an amount that is not negative: 0
    when the estimate of the wallet is negative, that estimate otherwise.
    The estimate is the one the wallet gives for the wallet account of the
    main account at the chosen fee rate. *)
Theorem estimateMaxSpendable_nonnegative account parentAccount transaction :
  let mainAccount := getMainAccount account parentAccount in
  let maxSpendable :=
    estimateAccountMaxSpendable
      (getWalletAccount mainAccount)
      (toNumber (chosenFeePerByte getAccountNetworkInfo mainAccount
                                  transaction)) in
  let result :=
    estimateMaxSpendable getMainAccount getWalletAccount
      getAccountNetworkInfo estimateAccountMaxSpendable
      account parentAccount transaction in
  0 ≤ result
  ∧ (maxSpendable < 0 → result = 0)
  ∧ (0 ≤ maxSpendable → result = maxSpendable).
Proof.
  intros mainAccount maxSpendable result. subst result.
  unfold estimateMaxSpendable, lt.
  fold mainAccount. fold maxSpendable.
  destruct (Z.ltb_spec maxSpendable 0); split_and!; intros; lia.
Qed.

End BitcoinFacts.

(** ** The theorems at the sample inputs *)

Section Witnesses.

Import JS Classifier Reconciler Examples.

Lemma txToOp_value_witness :
  ∃ c, classify "A" outgoing = Break c
       ∧ op_type outgoing_op = c_type c
       ∧ op_fee outgoing_op = computeFee outgoing
       ∧ (op_type outgoing_op ≠ IN →
          op_value outgoing_op = principal c + op_fee outgoing_op)
       ∧ (op_type outgoing_op = IN → op_value outgoing_op = principal c).
Proof.
  apply (txToOp_value encodeOperationId "A" "acc" outgoing outgoing_op).
  reflexivity.
Defined.

Lemma txToOp_fee_witness :
  (tx_status outgoing = Some "failed" → hasFailed outgoing = true)
  ∧ op_hasFailed outgoing_op = hasFailed outgoing
  ∧ (hasFailed outgoing = true →
     op_fee outgoing_op = default 0 (tx_bakerFee outgoing))
  ∧ (hasFailed outgoing = false →
     op_fee outgoing_op = default 0 (tx_bakerFee outgoing)
                          + default 0 (tx_allocationFee outgoing)
                          + default 0 (tx_storageFee outgoing)).
Proof.
  apply (txToOp_fee encodeOperationId "A" "acc" outgoing outgoing_op).
  reflexivity.
Defined.

Lemma txToOp_fees_only_witness :
  ∃ c op, classify "A" selfTransfer = Break c
          ∧ c_type c = FEES
          ∧ principal c = 0
          ∧ txToOp encodeOperationId "A" "acc" selfTransfer = Emitted op
          ∧ op_type op = FEES
          ∧ op_value op = op_fee op.
Proof.
  apply (txToOp_fees_only encodeOperationId "A" "acc" selfTransfer).
  - reflexivity.
  - left. split; reflexivity.
Defined.

Lemma txToOp_zero_amount_witness :
  ∃ op, txToOp encodeOperationId "A" "acc" zeroAmount = Emitted op
        ∧ op_type op = FEES
        ∧ op_type op ≠ IN
        ∧ op_type op ≠ OUT.
Proof.
  apply (txToOp_zero_amount encodeOperationId "A" "acc" zeroAmount).
  - reflexivity.
  - left. reflexivity.
  - reflexivity.
  - reflexivity.
Defined.

Lemma txToOp_failed_incoming_witness :
  (∃ c, classify "A" failedIncoming = Break c
        ∧ c_type c = IN ∧ c_maybeValue c = None)
  ∧ txToOp encodeOperationId "A" "acc" failedIncoming = Undefined None.
Proof.
  apply (txToOp_failed_incoming encodeOperationId "A" "acc" failedIncoming).
  - reflexivity.
  - reflexivity.
  - discriminate.
  - reflexivity.
Defined.

Lemma txToOp_one_sender_one_recipient_witness :
  length (op_senders outgoing_op) = 1%nat
  ∧ length (op_recipients outgoing_op) = 1%nat.
Proof.
  apply (txToOp_one_sender_one_recipient
           encodeOperationId "A" "acc" outgoing outgoing_op).
  reflexivity.
Defined.

Lemma reconciliateSubAccounts_identity_witness :
  let out :=
    reconciliateSubAccounts unchangedStore 11%positive (Some previousAccount) in
  returnedAs out 10%positive 0%nat 1%positive
  ∧ returnedAs out 10%positive 0%nat 1%positive
  ∧ returned out = 10%positive.
Proof.
  destruct (reconciliateSubAccounts_identity
              unchangedStore 11%positive previousAccount 10%positive eq_refl)
    as (Hfound & Hkeyed & Hlist).
  split_and!.
  - apply (Hfound 0%nat 2%positive 1%positive).
    + reflexivity.
    + reflexivity.
    + intros k. reflexivity.
  - apply (Hkeyed (NoDup_singleton _) 0%nat 2%positive 1%positive).
    + reflexivity.
    + vm_compute. left.
    + reflexivity.
    + intros k. reflexivity.
  - apply Hlist. reflexivity.
Defined.

End Witnesses.

(** * Further properties *)

(** ** The classifier, kind by kind *)

Section ClassifierKinds.

Import JS Classifier.

Variable encodeOperationId : string → option string → OperationType → string.

Abbreviation txToOp := (Classifier.txToOp encodeOperationId).
Abbreviation settle := (Classifier.settle encodeOperationId).

Lemma str_seq_false (x : option string) (s : string) :
  str_seq x s = false ↔ x ≠ Some s.
Proof. by rewrite <- not_true_iff_false, str_seq_true. Qed.

(** A party that is the account makes [===] true and [!==] false; one that
    is not, the reverse. *)
Lemma party_is (x : option string) (s : string) :
  x = Some s → str_seq x s = true ∧ str_sne x s = false.
Proof. intros H. by rewrite str_seq_true, str_sne_false. Qed.

Lemma party_is_not (x : option string) (s : string) :
  x ≠ Some s → str_seq x s = false ∧ str_sne x s = true.
Proof. intros H. by rewrite str_seq_false, str_sne_true. Qed.

(** The operation that the code after the [switch] builds, when it builds
    one. *)
Lemma settle_builds accountId tx c :
  ¬ (c_type c = IN ∧ principal c = 0) →
  settle accountId tx c =
  Emitted {|
    op_id := encodeOperationId accountId (tx_hash tx) (c_type c);
    op_hash := tx_hash tx;
    op_type := c_type c;
    op_value := if bool_decide (c_type c ≠ IN)
                then principal c + computeFee tx else principal c;
    op_fee := computeFee tx;
    op_senders := c_senders c;
    op_recipients := c_recipients c;
    op_blockHeight := tx_level tx;
    op_blockHash := tx_block tx;
    op_accountId := accountId;
    op_date := tx_timestamp tx;
    op_extra := tt;
    op_hasFailed := hasFailed tx
  |}.
Proof.
  intros H. unfold Classifier.settle, eq, plus.
  destruct (bool_decide (c_type c = IN) && (principal c =? 0)) eqn:E; [|done].
  apply andb_true_iff in E as [Ht%bool_decide_eq_true Hv%Z.eqb_eq]. tauto.
Qed.

(** The fee, with the missing fees read as 0. *)
Lemma computeFee_failed tx :
  hasFailed tx = true → computeFee tx = default 0 (tx_bakerFee tx).
Proof. intros H. unfold computeFee. by rewrite H, num_or_zero. Qed.

Lemma computeFee_applied tx :
  hasFailed tx = false →
  computeFee tx = default 0 (tx_bakerFee tx)
                  + default 0 (tx_allocationFee tx)
                  + default 0 (tx_storageFee tx).
Proof. intros H. unfold computeFee, plus. by rewrite H, !num_or_zero. Qed.

(** How the [switch] ends on a transfer, by the parties and the status. *)
Lemma classify_transfer address tx :
  tx_type tx = "transaction" →
  let from := party_address <$> tx_sender tx in
  let to := party_address <$> tx_target tx in
  let initiator := party_address <$> tx_initiator tx in
  let senders := [str_or from (str_or initiator "")] in
  let recipients := [str_or to ""] in
  classify address tx =
  if bool_decide (from ≠ Some address ∧ to ≠ Some address
                  ∧ initiator ≠ Some address)
  then Return (Unrelated ("found tx is unrelated to account! "
                          +:+ show_str (tx_hash tx)))
  else if bool_decide (from = Some address ↔ to = Some address)
  then Break (mkClassified FEES None senders recipients)
  else if hasFailed tx
  then Break (mkClassified (if bool_decide (to = Some address) then IN else OUT)
                None senders recipients)
  else if bool_decide (default 0 (tx_amount tx) = 0)
  then Break (mkClassified FEES (Some 0) senders recipients)
  else Break (mkClassified (if bool_decide (to = Some address) then IN else OUT)
                (Some (default 0 (tx_amount tx))) senders recipients).
Proof.
  intros Hk from to initiator senders recipients.
  unfold classify. rewrite Hk. cbn [String.eqb Ascii.eqb Bool.eqb].
  fold from to initiator. rewrite num_or_zero. unfold eq.
  destruct (decide (from = Some address)) as [Hf|Hf];
    [apply party_is in Hf as Hf'|apply party_is_not in Hf as Hf'];
    destruct Hf' as [-> ->];
  (destruct (decide (to = Some address)) as [Ht|Ht];
    [apply party_is in Ht as Ht'|apply party_is_not in Ht as Ht'];
    destruct Ht' as [-> ->]);
  (destruct (decide (initiator = Some address)) as [Hi|Hi];
    [apply party_is in Hi as Hi'|apply party_is_not in Hi as Hi'];
    destruct Hi' as [_ ->]);
  cbn [andb orb negb];
  repeat (case_bool_decide; try tauto);
  destruct (hasFailed tx); cbn [negb]; try done;
  destruct (Z.eqb_spec (default 0 (tx_amount tx)) 0) as [E|E];
  try done; try (by rewrite E).
Qed.

Lemma txToOp_Break address accountId tx c :
  classify address tx = Break c →
  txToOp address accountId tx = settle accountId tx c.
Proof. intros H. unfold Classifier.txToOp. by rewrite H. Qed.

(** The [switch] throws for an origination without contract, and for
    nothing else. *)
Lemma classify_TypeError address tx :
  classify address tx = SwitchTypeError
  ↔ tx_type tx = "origination" ∧ tx_originatedContract tx = None.
Proof.
  unfold classify. split.
  - intros H. repeat case_match; simplify_eq.
    split; [by apply String.eqb_eq|done].
  - intros [-> ->]. done.
Qed.

(** The [switch] reaches its [default] for the kinds it has no case for. *)
Lemma classify_Unsupported address tx w :
  classify address tx = Return (Unsupported w)
  ↔ w = tx ∧ tx_type tx ∉ Notions.supportedKinds.
Proof.
  unfold classify, Notions.supportedKinds. split.
  - intros H.
    repeat (match goal with
            | H : context [String.eqb ?a ?b] |- _ =>
                destruct (String.eqb_spec a b)
            end);
      repeat case_match; simplify_eq.
    split; [done|]. rewrite !not_elem_of_cons. split_and!; try done.
    apply not_elem_of_nil.
  - intros [-> Hn].
    repeat (match goal with
            | |- context [String.eqb ?a ?b] =>
                destruct (String.eqb_spec a b); [set_solver|]
            end).
    done.
Qed.

(** X1.  A transfer none of whose sender, target and initiator is the
    account yields no operation: [txToOp] returns [undefined] after the
    warning that names the hash. *)
Theorem txToOp_unrelated address accountId tx :
  tx_type tx = "transaction" →
  party_address <$> tx_sender tx ≠ Some address →
  party_address <$> tx_target tx ≠ Some address →
  party_address <$> tx_initiator tx ≠ Some address →
  txToOp address accountId tx =
  Undefined (Some (Unrelated ("found tx is unrelated to account! "
                              +:+ show_str (tx_hash tx)))).
Proof.
  intros Hk Hf Ht Hi. unfold Classifier.txToOp.
  rewrite (classify_transfer address tx Hk). cbv zeta.
  by rewrite bool_decide_eq_true_2.
Qed.

(** X2.  [txToOp] returns [undefined] after the warning "unsupported tx"
    exactly for the raw transactions whose kind is none of transaction,
    delegation, reveal, migration, origination, activation. *)
Theorem txToOp_unsupported address accountId tx :
  txToOp address accountId tx = Undefined (Some (Unsupported tx))
  ↔ tx_type tx ∉ Notions.supportedKinds.
Proof.
  unfold Classifier.txToOp. split.
  - destruct (classify address tx) as [c|w|] eqn:Hc.
    + unfold Classifier.settle. by case_match.
    + intros [= ->]. by apply classify_Unsupported in Hc as [_ ?].
    + done.
  - intros Hn.
    by rewrite (proj2 (classify_Unsupported address tx tx) (conj eq_refl Hn)).
Qed.

(** X3.  [txToOp] throws a TypeError exactly for an origination that has
    no originated contract; for no other raw transaction does it throw. *)
Theorem txToOp_throws address accountId tx :
  txToOp address accountId tx = TypeError
  ↔ tx_type tx = "origination" ∧ tx_originatedContract tx = None.
Proof.
  rewrite <- (classify_TypeError address). unfold Classifier.txToOp.
  destruct (classify address tx) as [c|w|] eqn:Hc; [|done..].
  unfold Classifier.settle. split; [by case_match|done].
Qed.

(** X4.  A delegation always yields an operation: of type DELEGATE with the
    new delegate as recipient when there is one, of type UNDELEGATE with
    the empty string as recipient when there is none; the account is the
    sender and the value is the fee. *)
Theorem txToOp_delegation address accountId tx :
  tx_type tx = "delegation" →
  ∃ op, txToOp address accountId tx = Emitted op
        ∧ op_type op = (if tx_newDelegate tx is Some _
                        then DELEGATE else UNDELEGATE)
        ∧ op_senders op = [address]
        ∧ op_recipients op = [if tx_newDelegate tx is Some d
                              then party_address d else ""]
        ∧ op_fee op = computeFee tx
        ∧ op_value op = op_fee op.
Proof.
  intros Hk. eexists.
  rewrite (txToOp_Break address accountId tx
             (mkClassified
                (if tx_newDelegate tx is Some _ then DELEGATE else UNDELEGATE)
                None [address]
                [if tx_newDelegate tx is Some d then party_address d else ""])).
  2: { unfold classify. by rewrite Hk. }
  rewrite settle_builds; [|by destruct (tx_newDelegate tx); intros []].
  simpl. split_and!; try done.
  by destruct (tx_newDelegate tx).
Qed.

(** X5.  A reveal always yields an operation of type REVEAL, with the
    account as sender and as recipient and the fee as value. *)
Theorem txToOp_reveal address accountId tx :
  tx_type tx = "reveal" →
  ∃ op, txToOp address accountId tx = Emitted op
        ∧ op_type op = REVEAL
        ∧ op_senders op = [address]
        ∧ op_recipients op = [address]
        ∧ op_fee op = computeFee tx
        ∧ op_value op = op_fee op.
Proof.
  intros Hk. eexists.
  rewrite (txToOp_Break address accountId tx
             (mkClassified REVEAL None [address] [address])).
  2: { unfold classify. by rewrite Hk. }
  rewrite settle_builds; [|by intros []].
  simpl. by split_and!.
Qed.

(** X6.  A migration is classified by the sign of its balance change: a
    negative change yields an operation of type OUT whose value is the
    absolute change plus the fee, a positive change one of type IN whose
    value is the change alone, and a change of 0 (or none) no operation. *)
Theorem txToOp_migration address accountId tx :
  tx_type tx = "migration" →
  let change := default 0 (tx_balanceChange tx) in
  (change < 0 →
   ∃ op, txToOp address accountId tx = Emitted op
         ∧ op_type op = OUT
         ∧ op_fee op = computeFee tx
         ∧ op_value op = - change + op_fee op
         ∧ op_senders op = [address] ∧ op_recipients op = [address])
  ∧ (0 < change →
     ∃ op, txToOp address accountId tx = Emitted op
           ∧ op_type op = IN
           ∧ op_fee op = computeFee tx
           ∧ op_value op = change
           ∧ op_senders op = [address] ∧ op_recipients op = [address])
  ∧ (change = 0 → txToOp address accountId tx = Undefined None).
Proof.
  intros Hk change.
  assert (classify address tx =
          Break (mkClassified
                   (if bool_decide (change < 0) then OUT else IN)
                   (Some (Z.abs change)) [address] [address])) as Hc.
  { unfold classify. rewrite Hk. cbn [String.eqb Ascii.eqb Bool.eqb].
    rewrite num_or_zero. fold change. do 3 f_equal.
    unfold num_lt, change. destruct (tx_balanceChange tx) as [n|]; simpl.
    - destruct (Z.ltb_spec n 0); by case_bool_decide; try lia.
    - done. }
  rewrite (txToOp_Break _ _ _ _ Hc). split_and!; intros Hch.
  - rewrite bool_decide_eq_true_2 by done.
    eexists. rewrite settle_builds; [|by intros []].
    unfold principal; simpl. split_and!; try done. simpl. lia.
  - rewrite bool_decide_eq_false_2 by lia.
    eexists. rewrite settle_builds; [|unfold principal; simpl; lia].
    unfold principal; simpl. split_and!; try done. simpl. lia.
  - rewrite bool_decide_eq_false_2 by lia.
    apply settle_discards; [done|]. unfold principal; simpl. lia.
Qed.

(** X7.  An origination that has an originated contract always yields an
    operation of type CREATE, from the account to the contract, whose value
    is the balance of the contract (0 when missing) plus the fee. *)
Theorem txToOp_origination address accountId tx contract :
  tx_type tx = "origination" →
  tx_originatedContract tx = Some contract →
  ∃ op, txToOp address accountId tx = Emitted op
        ∧ op_type op = CREATE
        ∧ op_fee op = computeFee tx
        ∧ op_value op = default 0 (tx_contractBalance tx) + op_fee op
        ∧ op_senders op = [address]
        ∧ op_recipients op = [party_address contract].
Proof.
  intros Hk Hcontract. eexists.
  rewrite (txToOp_Break address accountId tx
             (mkClassified CREATE (Some (default 0 (tx_contractBalance tx)))
                [address] [party_address contract])).
  2: { unfold classify. rewrite Hk, Hcontract. simpl. by rewrite num_or_zero. }
  rewrite settle_builds; [|by intros []].
  simpl. by split_and!.
Qed.

(** X8.  An activation yields an operation of type IN whose value is the
    activated balance, the fee not being added to it, when that balance is
    not 0; when the balance is 0 or missing it yields no operation. *)
Theorem txToOp_activation address accountId tx :
  tx_type tx = "activation" →
  (default 0 (tx_balance tx) ≠ 0 →
   ∃ op, txToOp address accountId tx = Emitted op
         ∧ op_type op = IN
         ∧ op_fee op = computeFee tx
         ∧ op_value op = default 0 (tx_balance tx)
         ∧ op_senders op = [address] ∧ op_recipients op = [address])
  ∧ (default 0 (tx_balance tx) = 0 →
     txToOp address accountId tx = Undefined None).
Proof.
  intros Hk.
  rewrite (txToOp_Break address accountId tx
             (mkClassified IN (Some (default 0 (tx_balance tx)))
                [address] [address])).
  2: { unfold classify. rewrite Hk. simpl. by rewrite num_or_zero. }
  split; intros Hb.
  - eexists. rewrite settle_builds; [|by intros [_ ?]].
    simpl. by split_and!.
  - by apply settle_discards.
Qed.

(** [x || ""] is [x], or the empty string when [x] is missing. *)
Lemma str_or_empty (x : option string) : str_or x "" = default "" x.
Proof.
  unfold str_or, truthy_str. destruct x as [y|]; simpl; [|done].
  destruct (String.eqb_spec y ""); simpl; congruence.
Qed.

Lemma str_or_Some (y d : string) : y ≠ "" → str_or (Some y) d = y.
Proof.
  intros H. unfold str_or, truthy_str.
  destruct (String.eqb_spec y ""); simpl; congruence.
Qed.

(** X9.  A transfer that the account sends to another party, that has not
    failed and whose amount is not 0 yields an operation of type OUT whose
    value is the amount plus the fee; its recipient is the target, and its
    sender the account. *)
Theorem txToOp_outgoing address accountId tx :
  tx_type tx = "transaction" →
  party_address <$> tx_sender tx = Some address →
  party_address <$> tx_target tx ≠ Some address →
  hasFailed tx = false →
  default 0 (tx_amount tx) ≠ 0 →
  ∃ op, txToOp address accountId tx = Emitted op
        ∧ op_type op = OUT
        ∧ op_fee op = computeFee tx
        ∧ op_value op = default 0 (tx_amount tx) + op_fee op
        ∧ op_recipients op = [default "" (party_address <$> tx_target tx)]
        ∧ (address ≠ "" → op_senders op = [address]).
Proof.
  intros Hk Hf Ht Hfail Hamount. eexists.
  unfold Classifier.txToOp. rewrite (classify_transfer address tx Hk).
  cbv zeta. rewrite Hfail.
  rewrite bool_decide_eq_false_2 by tauto.
  rewrite bool_decide_eq_false_2 by tauto.
  rewrite bool_decide_eq_false_2 by done.
  rewrite (bool_decide_eq_false_2 (_ = Some address)) by done.
  rewrite settle_builds; [|by intros []].
  simpl. rewrite Hf, !str_or_empty. split_and!; simpl; try done.
  intros Hne. by rewrite str_or_Some.
Qed.

(** X10.  A transfer that another party sends to the account, that has not
    failed and whose amount is not 0 yields an operation of type IN whose
    value is the amount alone, the fee being reported beside it; its
    recipient is the account. *)
Theorem txToOp_incoming address accountId tx :
  tx_type tx = "transaction" →
  party_address <$> tx_target tx = Some address →
  party_address <$> tx_sender tx ≠ Some address →
  hasFailed tx = false →
  default 0 (tx_amount tx) ≠ 0 →
  ∃ op, txToOp address accountId tx = Emitted op
        ∧ op_type op = IN
        ∧ op_fee op = computeFee tx
        ∧ op_value op = default 0 (tx_amount tx)
        ∧ (address ≠ "" → op_recipients op = [address]).
Proof.
  intros Hk Ht Hf Hfail Hamount. eexists.
  unfold Classifier.txToOp. rewrite (classify_transfer address tx Hk).
  cbv zeta. rewrite Hfail.
  rewrite bool_decide_eq_false_2 by tauto.
  rewrite bool_decide_eq_false_2 by tauto.
  rewrite bool_decide_eq_false_2 by done.
  rewrite (bool_decide_eq_true_2 (_ = Some address)) by done.
  rewrite settle_builds; [|by intros [_ ?]].
  simpl. rewrite Ht. split_and!; simpl; try done.
  intros Hne. by rewrite str_or_Some.
Qed.

(** X11.  A transfer that the account sends to another party and that has
    failed still yields an operation: of type OUT, marked as failed, whose
    value and fee are both the baker fee alone, whatever the amount. *)
Theorem txToOp_failed_outgoing address accountId tx :
  tx_type tx = "transaction" →
  party_address <$> tx_sender tx = Some address →
  party_address <$> tx_target tx ≠ Some address →
  hasFailed tx = true →
  ∃ op, txToOp address accountId tx = Emitted op
        ∧ op_type op = OUT
        ∧ op_hasFailed op = true
        ∧ op_fee op = default 0 (tx_bakerFee tx)
        ∧ op_value op = default 0 (tx_bakerFee tx).
Proof.
  intros Hk Hf Ht Hfail. eexists.
  unfold Classifier.txToOp. rewrite (classify_transfer address tx Hk).
  cbv zeta. rewrite Hfail.
  rewrite bool_decide_eq_false_2 by tauto.
  rewrite bool_decide_eq_false_2 by tauto.
  rewrite (bool_decide_eq_false_2 (_ = Some address)) by done.
  rewrite settle_builds; [|by intros []].
  simpl. rewrite (computeFee_failed tx Hfail). by split_and!.
Qed.

(** Every emitted operation is the one that the code after the [switch]
    builds from what the [switch] leaves. *)
Lemma txToOp_Emitted_builds address accountId tx op :
  txToOp address accountId tx = Emitted op →
  ∃ c, classify address tx = Break c
       ∧ ¬ (c_type c = IN ∧ principal c = 0)
       ∧ op = {|
           op_id := encodeOperationId accountId (tx_hash tx) (c_type c);
           op_hash := tx_hash tx;
           op_type := c_type c;
           op_value := if bool_decide (c_type c ≠ IN)
                       then principal c + computeFee tx else principal c;
           op_fee := computeFee tx;
           op_senders := c_senders c;
           op_recipients := c_recipients c;
           op_blockHeight := tx_level tx;
           op_blockHash := tx_block tx;
           op_accountId := accountId;
           op_date := tx_timestamp tx;
           op_extra := tt;
           op_hasFailed := hasFailed tx
         |}.
Proof.
  unfold Classifier.txToOp.
  destruct (classify address tx) as [c|w|] eqn:Hc; [|done..].
  intros Hs. exists c. split; [done|].
  assert (¬ (c_type c = IN ∧ principal c = 0)) as Hn.
  { intros [Ht Hv]. by rewrite settle_discards in Hs. }
  split; [done|]. rewrite settle_builds in Hs by done. by injection Hs.
Qed.

(** X12.  An operation emitted for a transfer has type IN, OUT or FEES.  It
    has type IN only when the account is the target and not the sender and
    the transfer has not failed, and then its value is the amount, which is
    not 0; it has type OUT only when the account is the sender and not the
    target; and when it has type FEES its value is its fee. *)
Theorem txToOp_transfer_direction address accountId tx op :
  tx_type tx = "transaction" →
  txToOp address accountId tx = Emitted op →
  (op_type op = IN ∨ op_type op = OUT ∨ op_type op = FEES)
  ∧ (op_type op = IN →
     party_address <$> tx_target tx = Some address
     ∧ party_address <$> tx_sender tx ≠ Some address
     ∧ hasFailed tx = false
     ∧ op_value op = default 0 (tx_amount tx)
     ∧ op_value op ≠ 0)
  ∧ (op_type op = OUT →
     party_address <$> tx_sender tx = Some address
     ∧ party_address <$> tx_target tx ≠ Some address)
  ∧ (op_type op = FEES → op_value op = op_fee op).
Proof.
  intros Hk (c & Hc & Hn & ->)%txToOp_Emitted_builds.
  rewrite (classify_transfer address tx Hk) in Hc. cbv zeta in Hc.
  destruct (decide (party_address <$> tx_sender tx = Some address)),
           (decide (party_address <$> tx_target tx = Some address));
    repeat case_bool_decide; destruct (hasFailed tx) eqn:Hfail;
    simplify_eq; simpl in *; unfold principal in *; simpl in *;
    split_and!; try done; try tauto;
    try (intros _; split_and!; try done; tauto).
Qed.

(** X13.  The parties of an operation emitted for a transfer: the recipient
    is the target (the empty string when there is none); the sender is the
    sender of the transfer when it has one that is not empty, and otherwise
    the initiator (the empty string when there is none). *)
Theorem txToOp_transfer_parties address accountId tx op :
  tx_type tx = "transaction" →
  txToOp address accountId tx = Emitted op →
  op_recipients op = [default "" (party_address <$> tx_target tx)]
  ∧ (∀ f, party_address <$> tx_sender tx = Some f → f ≠ "" →
          op_senders op = [f])
  ∧ (party_address <$> tx_sender tx = None
     ∨ party_address <$> tx_sender tx = Some "" →
     op_senders op = [default "" (party_address <$> tx_initiator tx)]).
Proof.
  intros Hk (c & Hc & Hn & ->)%txToOp_Emitted_builds.
  rewrite (classify_transfer address tx Hk) in Hc. cbv zeta in Hc.
  assert (c_senders c =
          [str_or (party_address <$> tx_sender tx)
                  (str_or (party_address <$> tx_initiator tx) "")]
          ∧ c_recipients c = [str_or (party_address <$> tx_target tx) ""])
    as [Hs Hr].
  { repeat case_match; by simplify_eq. }
  simpl. rewrite Hs, Hr, !str_or_empty. split_and!; [done| |].
  - intros f -> Hf. by rewrite str_or_Some.
  - by intros [-> | ->].
Qed.

(** What an emitted operation carries over: its id is made by
    [encodeOperationId] from the account id, the hash of the raw
    transaction and the type the operation ends with; hash, level, block,
    timestamp and failure status are those of the raw transaction. *)
Lemma txToOp_carries address accountId tx op :
  txToOp address accountId tx = Emitted op →
  op_id op = encodeOperationId accountId (tx_hash tx) (op_type op)
  ∧ op_accountId op = accountId
  ∧ op_hash op = tx_hash tx
  ∧ op_blockHeight op = tx_level tx
  ∧ op_blockHash op = tx_block tx
  ∧ op_date op = tx_timestamp tx
  ∧ op_hasFailed op = hasFailed tx.
Proof. by intros (c & Hc & Hn & ->)%txToOp_Emitted_builds. Qed.

(** The principal that the [switch] leaves is not negative when the amounts
    it reads are not. *)
Lemma classify_principal_nonneg address tx c :
  Notions.amountsNotNegative tx →
  classify address tx = Break c → 0 ≤ principal c.
Proof.
  intros (Ha & Hcb & Hb & _). unfold classify, principal.
  rewrite !num_or_zero. intros Hc.
  repeat case_match; simplify_eq; simpl; try done; lia.
Qed.

Lemma computeFee_nonneg tx :
  Notions.amountsNotNegative tx → 0 ≤ computeFee tx.
Proof.
  intros (_ & _ & _ & Hbf & Haf & Hsf). unfold computeFee, plus.
  rewrite !num_or_zero. case_match; lia.
Qed.

(** X14.  When the amounts and fees of a raw transaction are not negative,
    the operation emitted for it has a fee and a value that are not
    negative; its value is at least its fee when its type is not IN, and is
    positive when its type is IN. *)
Theorem txToOp_not_negative address accountId tx op :
  Notions.amountsNotNegative tx →
  txToOp address accountId tx = Emitted op →
  0 ≤ op_fee op
  ∧ 0 ≤ op_value op
  ∧ (op_type op ≠ IN → op_fee op ≤ op_value op)
  ∧ (op_type op = IN → 0 < op_value op).
Proof.
  intros Hnn (c & Hc & Hn & ->)%txToOp_Emitted_builds. simpl.
  pose proof (classify_principal_nonneg address tx c Hnn Hc) as Hp.
  pose proof (computeFee_nonneg tx Hnn) as Hf.
  case_bool_decide as Ht; split_and!; try done; try lia.
  intros HIN. assert (principal c ≠ 0) by tauto. lia.
Qed.

End ClassifierKinds.

(** ** The paginated fetcher: what it logs, and the empty history *)

Section FetcherMore.

Import JS Classifier Fetcher.

Context {World : Type}.
Variable getAccountOperations :
  string → option Z → World → list APIOperation * World.

Abbreviation doWhile := (Fetcher.doWhile getAccountOperations).
Abbreviation fetchAllTransactions :=
  (Fetcher.fetchAllTransactions getAccountOperations).

(** A run of the loop adds at least one fetch, and logs one line exactly
    when its last fetch lost the cursor. *)
Lemma doWhile_logs n address lastId txs s :
  ∃ before f,
    fetches (snd (doWhile (S n) address lastId txs s))
    = fetches s ++ before ++ [f]
    ∧ logs (snd (doWhile (S n) address lastId txs s))
      = logs s ++ (if Notions.cursorLost f
                   then [("tezos", "id missing!")] else []).
Proof.
  revert lastId txs s. induction n as [|n IH]; intros lastId txs s;
    rewrite doWhile_step; cbv zeta;
    destruct (getAccountOperations address lastId (world s)) as [r w] eqn:Eg;
    cbn [fst snd];
    (destruct r as [|x r]; cbn [length Nat.eqb];
     [|destruct (truthy_num (lastItemId (txs ++ x :: r))) eqn:Et; cbn [negb]]).
  - exists [], (mkFetch lastId []). simpl. by rewrite app_nil_r.
  - exists [], (mkFetch lastId (x :: r)). simpl. split; [done|].
    unfold Notions.cursorLost. simpl.
    rewrite <- (lastItemId_app txs), Et by done. simpl. by rewrite app_nil_r.
  - exists [], (mkFetch lastId (x :: r)). simpl. split; [done|].
    unfold Notions.cursorLost. simpl.
    by rewrite <- (lastItemId_app txs), Et by done.
  - exists [], (mkFetch lastId []). simpl. by rewrite app_nil_r.
  - set (s1 := mkState w (fetches s ++ [mkFetch lastId (x :: r)]) (logs s)).
    destruct (IH (lastItemId (txs ++ x :: r)) (txs ++ x :: r) s1)
      as (before & f & Hf & Hl).
    exists (mkFetch lastId (x :: r) :: before), f.
    rewrite Hf, Hl. subst s1. simpl. by rewrite <- app_assoc.
  - exists [], (mkFetch lastId (x :: r)). simpl. split; [done|].
    unfold Notions.cursorLost. simpl.
    by rewrite <- (lastItemId_app txs), Et by done.
Qed.

(** X15.  A call of [fetchAllTransactions] logs at most one line: it logs
    "id missing!" when the last page it fetched is not empty and the last
    item of that page has no id, and logs nothing otherwise. *)
Theorem fetchAllTransactions_logs address lastId w :
  let run := fetchAllTransactions address lastId (start w) in
  logs (snd run) =
  match last (fetches (snd run)) with
  | Some f =>
      if Notions.cursorLost f then [("tezos", "id missing!")] else []
  | None => []
  end.
Proof.
  unfold Fetcher.fetchAllTransactions. cbv zeta.
  destruct (doWhile_logs 19 address lastId [] (start w))
    as (before & f & Hf & Hl).
  rewrite Hf, Hl. change (fetches (start w)) with (@nil Fetch).
  change (logs (start w)) with (@nil (string * string)).
  by rewrite !app_nil_l, last_snoc.
Qed.

(** X16.  An account without history: when the first page that the indexer
    gives is empty, [fetchAllTransactions] returns the empty list after that
    single fetch; and it returns the empty list in no other case. *)
Theorem fetchAllTransactions_empty address lastId w :
  let run := fetchAllTransactions address lastId (start w) in
  let firstPage := fst (getAccountOperations address lastId w) in
  (firstPage = [] → fst run = [] ∧ length (fetches (snd run)) = 1%nat)
  ∧ (fst run = [] → firstPage = []).
Proof.
  unfold Fetcher.fetchAllTransactions. cbv zeta.
  destruct (doWhile_run getAccountOperations 19 address lastId [] (start w))
    as (new & Hf & Ho & Hans & Hch & Hlen & Hstop & Hall).
  change (fetches (start w)) with (@nil Fetch) in Hf.
  change (world (start w)) with w in Hans.
  rewrite app_nil_l in Hf, Ho. rewrite Hf, Ho.
  destruct new as [|f new]; [simpl in Hlen; lia|].
  destruct Hans as [Hpage _]. destruct Hch as [Hreq _].
  rewrite Hreq in Hpage. rewrite <- Hpage.
  split.
  - intros Hempty.
    assert (1 = length (f :: new))%nat as Hone.
    { apply (Hstop 0%nat f); [done|]. by left. }
    destruct new; [|done]. simpl. by rewrite Hempty.
  - simpl. by intros [? _]%app_eq_nil.
Qed.

End FetcherMore.

(** ** The sub-account reconciler: what it returns and what it records *)

Section ReconcilerMore.

Import Reconciler Notions.

Implicit Types (h : heap) (s : Locals) (a p ta : loc).

(** [map] returns as many items as it is given. *)
Lemma mapItems_length h prevs tas s :
  length (fst (mapItems h prevs tas s)) = length tas.
Proof.
  revert s. induction tas as [|t tas IH]; intros s; [done|].
  simpl. destruct (reconcileOne h prevs t s) as [r s1].
  specialize (IH s1). destruct (mapItems h prevs tas s1) as [rs s2].
  simpl in *. by rewrite IH.
Qed.

(** The callback only raises the flag and only adds notes. *)
Lemma reconcileOne_grows h prevs ta s :
  (anySubAccountHaveChanged s = true →
   anySubAccountHaveChanged (snd (reconcileOne h prevs ta s)) = true)
  ∧ stats s `prefix_of` stats (snd (reconcileOne h prevs ta s)).
Proof.
  unfold reconcileOne. repeat case_match; simpl;
    (split; [done|]); try done; by apply prefix_app_r.
Qed.

Lemma mapItems_grows h prevs tas s :
  (anySubAccountHaveChanged s = true →
   anySubAccountHaveChanged (snd (mapItems h prevs tas s)) = true)
  ∧ stats s `prefix_of` stats (snd (mapItems h prevs tas s)).
Proof.
  revert s. induction tas as [|t tas IH]; intros s; [done|].
  simpl. destruct (reconcileOne_grows h prevs t s) as [Hflag Hpre].
  destruct (reconcileOne h prevs t s) as [r s1].
  specialize (IH s1). destruct (mapItems h prevs tas s1) as [rs s2].
  simpl in *. destruct IH as [IHflag IHpre].
  split; [auto|]. by etrans.
Qed.

(** What [map] does at an index: it returns there what the callback
    returns, for the locals as they then are, and keeps the flag and the
    notes that the callback leaves. *)
Lemma mapItems_at h prevs tas s i ta :
  tas !! i = Some ta →
  ∃ si,
    fst (mapItems h prevs tas s) !! i = Some (fst (reconcileOne h prevs ta si))
    ∧ (anySubAccountHaveChanged (snd (reconcileOne h prevs ta si)) = true →
       anySubAccountHaveChanged (snd (mapItems h prevs tas s)) = true)
    ∧ stats (snd (reconcileOne h prevs ta si))
      `prefix_of` stats (snd (mapItems h prevs tas s)).
Proof.
  revert s i. induction tas as [|t tas IH]; intros s i Hi; [done|].
  destruct i as [|i]; simpl in Hi.
  - injection Hi as ->. exists s. simpl.
    destruct (mapItems_grows h prevs tas (snd (reconcileOne h prevs ta s)))
      as [Hflag Hpre].
    destruct (reconcileOne h prevs ta s) as [r s1]. simpl in *.
    destruct (mapItems h prevs tas s1) as [rs s2]. done.
  - simpl. destruct (reconcileOne h prevs t s) as [r s1].
    destruct (IH s1 i Hi) as (si & H1 & H2 & H3).
    exists si. by destruct (mapItems h prevs tas s1) as [rs s2].
Qed.

(** The three ways the callback ends. *)
Lemma reconcileOne_new h prevs ta s :
  prevs ≫= (λ prev, findById h prev (idOf h ta)) = None →
  reconcileOne h prevs ta s
  = (ta, mkLocals true (stats s ++ [newNote h ta])).
Proof. intros H. unfold reconcileOne. fold (idOf h ta). by rewrite H. Qed.

Lemma reconcileOne_changed h prev p ta s k :
  findById h prev (idOf h ta) = Some p →
  p ≠ ta →
  firstChangedField (objectAt h p) (objectAt h ta) = Some k →
  reconcileOne h (Some prev) ta s
  = (ta, mkLocals true (stats s ++ [changedNote h k ta])).
Proof.
  intros Hfind Hne Hk. unfold reconcileOne. fold (idOf h ta). simpl.
  by rewrite Hfind, bool_decide_eq_true_2, Hk.
Qed.

(** The property that the [for ... in] loop stops at is one of the previous
    sub-account that the derived one holds another value for; the loop
    finds none exactly when there is none. *)
Lemma firstChangedField_Some (existing ta : object) k :
  firstChangedField existing ta = Some k →
  (∃ v, (k, v) ∈ existing) ∧ get existing k ≠ get ta k.
Proof.
  unfold firstChangedField. intros H.
  apply fmap_Some in H as ([k' v] & Hfind & ->).
  apply find_some in Hfind as [Hin%list_elem_of_In Hne].
  simpl in *. split; [by exists v|].
  unfold strict_ne in Hne. by apply bool_decide_eq_true in Hne.
Qed.

Lemma firstChangedField_is_None (existing ta : object) :
  firstChangedField existing ta = None
  ↔ ∀ k v, (k, v) ∈ existing → get existing k = get ta k.
Proof.
  unfold firstChangedField. rewrite fmap_None. split.
  - intros H k v Hin%list_elem_of_In.
    pose proof (find_none _ _ H _ Hin) as Hf. simpl in Hf.
    unfold strict_ne in Hf. apply dec_stable. intros Hne.
    by rewrite bool_decide_eq_true_2 in Hf.
  - intros H.
    assert (∀ l : object,
              (∀ k v, (k, v) ∈ l → get existing k = get ta k) →
              find (λ kv, strict_ne (get existing kv.1) (get ta kv.1)) l
              = None) as Hall; [|by apply Hall].
    induction l as [|[k v] l IH]; intros Hl; simpl; [done|].
    unfold strict_ne at 1.
    rewrite bool_decide_eq_false_2.
    + apply IH. intros k' v' Hin. apply (Hl k' v'). by right.
    + intros Hne. apply Hne, (Hl k v). by left.
Qed.

(** What [map] makes is new, and the store it is added to is otherwise the
    same. *)
Lemma newArray_freshIn h items : freshIn h (fst (newArray h items)).
Proof. unfold freshIn, newArray; simpl. apply is_fresh. Qed.

Lemma newArray_keeps h items :
  objects (snd (newArray h items)) = objects h
  ∧ ∀ l, l ∈ dom (arrays h) →
         arrays (snd (newArray h items)) !! l = arrays h !! l.
Proof.
  unfold newArray; simpl. split; [done|]. intros l Hl.
  rewrite lookup_insert_ne; [done|]. intros <-. by apply is_fresh in Hl.
Qed.

(** A call with an initial account, in terms of its parts. *)
Lemma reconcile_parts h tokenAccounts account :
  let ms := mapItems h (arrayAt h <$> subAccounts account)
              (arrayAt h tokenAccounts) (initialLocals h tokenAccounts account) in
  let na := newArray h (fst ms) in
  let out := reconciliateSubAccounts h tokenAccounts (Some account) in
  store out = snd na
  ∧ notes out = stats (snd ms)
  ∧ returned out =
    (if anySubAccountHaveChanged (snd ms) then fst na
     else default (fst na) (subAccounts account)).
Proof.
  unfold reconciliateSubAccounts, initialLocals. cbv zeta.
  destruct (mapItems _ _ _ _) as [items s]. cbn [fst snd].
  destruct (newArray h items) as [mapped h'].
  destruct (anySubAccountHaveChanged s) eqn:E, (subAccounts account);
    cbn [store notes returned fst snd default]; rewrite ?E;
    split_and!; reflexivity.
Qed.

(** The flag and the notes go together from the start. *)
Lemma initialLocals_inStep h tokenAccounts account :
  inStep (initialLocals h tokenAccounts account).
Proof.
  unfold initialLocals, inStep.
  destruct (subAccounts account); [by case_bool_decide|done].
Qed.

(** When the callback leaves the flag down, it has returned a previous
    sub-account that has the id of the derived one and no property with
    another value in it. *)
Lemma reconcileOne_origin h prevs ta s :
  fst (reconcileOne h prevs ta s) = ta
  ∧ anySubAccountHaveChanged (snd (reconcileOne h prevs ta s)) = true
  ∨ ∃ prev p,
      prevs = Some prev
      ∧ findById h prev (idOf h ta) = Some p
      ∧ reconcileOne h prevs ta s = (p, s)
      ∧ ∀ k v, (k, v) ∈ objectAt h p →
               get (objectAt h p) k = get (objectAt h ta) k.
Proof.
  unfold reconcileOne. fold (idOf h ta).
  destruct prevs as [prev|]; simpl; [|by left].
  destruct (findById h prev (idOf h ta)) as [p|] eqn:Hfind; [|by left].
  case_bool_decide as Hne.
  - destruct (firstChangedField (objectAt h p) (objectAt h ta)) eqn:Hk;
      [by left|].
    right. exists prev, p. split_and!; try done.
    by apply firstChangedField_is_None.
  - right. exists prev, p. subst p. by split_and!.
Qed.

(** Reading the array that a call with an initial account returns, when
    the flag is up at the end. *)
Lemma reconcile_flagged h tokenAccounts account :
  let ms := mapItems h (arrayAt h <$> subAccounts account)
              (arrayAt h tokenAccounts) (initialLocals h tokenAccounts account) in
  let out := reconciliateSubAccounts h tokenAccounts (Some account) in
  anySubAccountHaveChanged (snd ms) = true ∨ subAccounts account = None →
  freshIn h (returned out)
  ∧ arrayAt (store out) (returned out) = fst ms.
Proof.
  intros ms out Hflag.
  destruct (reconcile_parts h tokenAccounts account) as (Hst & _ & Hret).
  fold ms out in Hst, Hret.
  assert (returned out = fst (newArray h (fst ms))) as ->.
  { rewrite Hret. destruct Hflag as [-> | ->]; [done|]. by case_match. }
  rewrite Hst. split; [apply newArray_freshIn|apply newArray_fresh].
Qed.

(** X17.  The reconciler leaves the store as it was, but for the array that
    [map] makes: no object and no array that existed changes.  The array it
    returns is either that new array or, when no note was recorded, the
    previous list of the initial account. *)
Theorem reconciliateSubAccounts_store h tokenAccounts initialAccount :
  let out := reconciliateSubAccounts h tokenAccounts initialAccount in
  objects (store out) = objects h
  ∧ (∀ l, l ∈ dom (arrays h) → arrays (store out) !! l = arrays h !! l)
  ∧ (freshIn h (returned out)
     ∨ ∃ account,
         initialAccount = Some account
         ∧ subAccounts account = Some (returned out)
         ∧ notes out = []).
Proof.
  destruct initialAccount as [account|]; cbv zeta.
  - destruct (reconcile_parts h tokenAccounts account) as (Hst & Hn & Hret).
    pose proof (mapItems_inStep h (arrayAt h <$> subAccounts account)
                  (arrayAt h tokenAccounts) _
                  (initialLocals_inStep h tokenAccounts account)) as Hstep.
    rewrite Hst, Hn, Hret.
    destruct (newArray_keeps h (mapItems h (arrayAt h <$> subAccounts account)
                (arrayAt h tokenAccounts)
                (initialLocals h tokenAccounts account)).1) as [Ho Ha].
    split_and!; [done..|].
    destruct (anySubAccountHaveChanged _) eqn:Hflag;
      [left; apply newArray_freshIn|].
    destruct (subAccounts account) as [prev|] eqn:Hprev;
      [|left; apply newArray_freshIn].
    right. exists account. split_and!; [done..|]. by apply Hstep.
  - unfold reconciliateSubAccounts.
    destruct (newArray_keeps h (arrayAt h tokenAccounts)) as [Ho Ha].
    pose proof (newArray_freshIn h (arrayAt h tokenAccounts)) as Hfr.
    destruct (newArray h (arrayAt h tokenAccounts)) as [mapped h'].
    simpl in *. split_and!; [done..|by left].
Qed.

(** X18.  The array that the reconciler returns has as many sub-accounts as
    the derived list, with or without an initial account. *)
Theorem reconciliateSubAccounts_length h tokenAccounts initialAccount :
  let out := reconciliateSubAccounts h tokenAccounts initialAccount in
  length (arrayAt (store out) (returned out))
  = length (arrayAt h tokenAccounts).
Proof.
  destruct initialAccount as [account|]; cbv zeta.
  - pose proof (reconcile_parts h tokenAccounts account) as (Hst & _ & Hret).
    pose proof (reconcile_flagged h tokenAccounts account) as Hfl.
    pose proof (mapItems_grows h (arrayAt h <$> subAccounts account)
                  (arrayAt h tokenAccounts)
                  (initialLocals h tokenAccounts account)) as [Hmono _].
    pose proof (mapItems_length h (arrayAt h <$> subAccounts account)
                  (arrayAt h tokenAccounts)
                  (initialLocals h tokenAccounts account)) as Hlen.
    cbv zeta in Hst, Hret, Hfl.
    destruct (anySubAccountHaveChanged _) eqn:Hflag in Hret.
    { destruct Hfl as [_ ->]; [by left|done]. }
    destruct (subAccounts account) as [prev|] eqn:Hprev.
    2: { destruct Hfl as [_ ->]; [by right|done]. }
    rewrite Hst, Hret. simpl.
    assert (length (arrayAt h tokenAccounts) = length (arrayAt h prev))
      as Hsame.
    { unfold initialLocals in Hmono at 1. rewrite Hprev in Hmono.
      case_bool_decide as Hl; [|done].
      rewrite Hmono in Hflag; done. }
    unfold newArray, arrayAt at 1; simpl.
    destruct (decide (fresh (dom (arrays h)) = prev)) as [<-|Hne].
    + by rewrite lookup_total_insert_eq.
    + rewrite lookup_total_insert_ne by done. by rewrite Hsame.
  - unfold reconciliateSubAccounts.
    pose proof (newArray_fresh h (arrayAt h tokenAccounts)) as Hfr.
    destruct (newArray h (arrayAt h tokenAccounts)) as [mapped h'].
    simpl in *. by rewrite Hfr.
Qed.

(** What a call with an initial account holds at an index where the
    callback has raised the flag and returned the derived sub-account. *)
Lemma reconcile_at_flagged h tokenAccounts account i ta note :
  arrayAt h tokenAccounts !! i = Some ta →
  (∀ s, reconcileOne h (arrayAt h <$> subAccounts account) ta s
        = (ta, mkLocals true (stats s ++ [note]))) →
  let out := reconciliateSubAccounts h tokenAccounts (Some account) in
  freshIn h (returned out)
  ∧ arrayAt (store out) (returned out) !! i = Some ta
  ∧ note ∈ notes out.
Proof.
  intros Hi Hone out.
  destruct (mapItems_at h (arrayAt h <$> subAccounts account)
              (arrayAt h tokenAccounts)
              (initialLocals h tokenAccounts account) i ta Hi)
    as (si & Hlook & Hflag & Hpre).
  rewrite (Hone si) in Hlook, Hflag, Hpre. simpl in Hlook, Hflag, Hpre.
  destruct (reconcile_flagged h tokenAccounts account) as [Hfresh Harr];
    [left; by apply Hflag|].
  destruct (reconcile_parts h tokenAccounts account) as (_ & Hn & _).
  fold out in Hfresh, Harr, Hn. rewrite Harr, Hn. split_and!; [done..|].
  destruct Hpre as [rest ->]. set_solver.
Qed.

(** X19.  A derived sub-account whose id no previous sub-account has is
    returned as it is, in a new array, and the note "new token account"
    with its id is recorded. *)
Theorem reconciliateSubAccounts_new h tokenAccounts account i ta :
  arrayAt h tokenAccounts !! i = Some ta →
  (∀ prev p, subAccounts account = Some prev → p ∈ arrayAt h prev →
             idOf h p ≠ idOf h ta) →
  let out := reconciliateSubAccounts h tokenAccounts (Some account) in
  freshIn h (returned out)
  ∧ arrayAt (store out) (returned out) !! i = Some ta
  ∧ newNote h ta ∈ notes out.
Proof.
  intros Hi Hnone. apply reconcile_at_flagged; [done|].
  intros s. apply reconcileOne_new.
  destruct (subAccounts account) as [prev|] eqn:Hprev; [|done]. simpl.
  destruct (findById h (arrayAt h prev) (idOf h ta)) as [p|] eqn:Hfind;
    [|done].
  apply findById_Some in Hfind as [Hin Hid].
  by destruct (Hnone prev p).
Qed.

(** X20.  A derived sub-account for which the lookup by id finds a previous
    sub-account that has a property with another value in it is returned as
    it is, in a new array, and a note names a property that has changed. *)
Theorem reconciliateSubAccounts_changed
    h tokenAccounts account prev i ta p k v :
  subAccounts account = Some prev →
  arrayAt h tokenAccounts !! i = Some ta →
  findById h (arrayAt h prev) (idOf h ta) = Some p →
  (k, v) ∈ objectAt h p →
  get (objectAt h p) k ≠ get (objectAt h ta) k →
  let out := reconciliateSubAccounts h tokenAccounts (Some account) in
  freshIn h (returned out)
  ∧ arrayAt (store out) (returned out) !! i = Some ta
  ∧ ∃ k', get (objectAt h p) k' ≠ get (objectAt h ta) k'
          ∧ changedNote h k' ta ∈ notes out.
Proof.
  intros Hprev Hi Hfind Hin Hdiff.
  destruct (firstChangedField (objectAt h p) (objectAt h ta)) as [k'|] eqn:Hk.
  2: { exfalso. apply Hdiff.
       by eapply (proj1 (firstChangedField_is_None _ _) Hk). }
  assert (p ≠ ta) as Hne by (by intros ->).
  destruct (reconcile_at_flagged h tokenAccounts account i ta
              (changedNote h k' ta) Hi) as (Hfresh & Hlook & Hnote).
  { intros s. rewrite Hprev. simpl. by apply reconcileOne_changed with p. }
  split_and!; [done..|]. exists k'. split; [|done].
  by apply firstChangedField_Some in Hk as [_ ?].
Qed.

(** X21.  With a previous list that is in the store, the reconciler returns
    that very list exactly when it has recorded no note. *)
Theorem reconciliateSubAccounts_same_list h tokenAccounts account prev :
  subAccounts account = Some prev →
  prev ∈ dom (arrays h) →
  let out := reconciliateSubAccounts h tokenAccounts (Some account) in
  returned out = prev ↔ notes out = [].
Proof.
  intros Hprev Hdom out.
  destruct (reconcile_parts h tokenAccounts account) as (_ & Hn & Hret).
  pose proof (mapItems_inStep h (arrayAt h <$> subAccounts account)
                (arrayAt h tokenAccounts) _
                (initialLocals_inStep h tokenAccounts account)) as Hstep.
  unfold inStep in Hstep.
  fold out in Hn, Hret. rewrite Hn, Hret, <- Hstep.
  destruct (anySubAccountHaveChanged _); rewrite ?Hprev; simpl; [|done].
  split; [|done]. intros Heq.
  pose proof (newArray_freshIn h (mapItems h (arrayAt h <$> subAccounts account)
                (arrayAt h tokenAccounts)
                (initialLocals h tokenAccounts account)).1) as Hfr.
  unfold freshIn, newArray in Hfr. simpl in Hfr. rewrite Heq in Hfr.
  by destruct Hfr.
Qed.

(** X22.  When the derived list and the previous list differ in length, the
    first note is "length differ" and the array returned is a new one. *)
Theorem reconciliateSubAccounts_length_differ h tokenAccounts account prev :
  subAccounts account = Some prev →
  length (arrayAt h tokenAccounts) ≠ length (arrayAt h prev) →
  let out := reconciliateSubAccounts h tokenAccounts (Some account) in
  freshIn h (returned out)
  ∧ ∃ rest, notes out = "length differ" :: rest.
Proof.
  intros Hprev Hlen out.
  destruct (mapItems_grows h (arrayAt h <$> subAccounts account)
              (arrayAt h tokenAccounts)
              (initialLocals h tokenAccounts account)) as [Hmono Hpre].
  assert (initialLocals h tokenAccounts account
          = mkLocals true ["length differ"]) as Hs0.
  { unfold initialLocals. by rewrite Hprev, bool_decide_eq_true_2. }
  rewrite Hs0 in Hmono at 1. rewrite Hs0 in Hpre at 1.
  destruct (reconcile_flagged h tokenAccounts account) as [Hfresh _];
    [left; by apply Hmono|].
  destruct (reconcile_parts h tokenAccounts account) as (_ & Hn & _).
  fold out in Hfresh, Hn. split; [done|]. rewrite Hn.
  destruct Hpre as [rest ->]. by exists rest.
Qed.

(** Without a previous list, [map] returns the derived sub-accounts and
    records one note for each. *)
Lemma mapItems_no_previous h tas s :
  fst (mapItems h None tas s) = tas
  ∧ stats (snd (mapItems h None tas s)) = stats s ++ (newNote h <$> tas).
Proof.
  revert s. induction tas as [|t tas IH]; intros s; cbn [mapItems].
  - simpl. by rewrite app_nil_r.
  - rewrite (reconcileOne_new h None t s) by done.
    specialize (IH (mkLocals true (stats s ++ [newNote h t]))).
    destruct (mapItems h None tas _) as [rs s2]. simpl in *.
    destruct IH as [-> ->]. by rewrite <- app_assoc.
Qed.

(** X23.  An initial account that has no sub-account list: every derived
    sub-account is returned as it is, in a new array, and one note "new
    token account" is recorded for each, in order. *)
Theorem reconciliateSubAccounts_no_previous_list h tokenAccounts account :
  subAccounts account = None →
  let out := reconciliateSubAccounts h tokenAccounts (Some account) in
  freshIn h (returned out)
  ∧ arrayAt (store out) (returned out) = arrayAt h tokenAccounts
  ∧ notes out = newNote h <$> arrayAt h tokenAccounts.
Proof.
  intros Hnone out.
  destruct (reconcile_flagged h tokenAccounts account) as [Hfresh Harr];
    [by right|].
  destruct (reconcile_parts h tokenAccounts account) as (_ & Hn & _).
  fold out in Hfresh, Harr, Hn. rewrite Harr, Hn, Hnone. simpl.
  destruct (mapItems_no_previous h (arrayAt h tokenAccounts)
              (initialLocals h tokenAccounts account)) as [-> ->].
  unfold initialLocals. by rewrite Hnone.
Qed.

(** X24.  Identity is kept only for what has not changed: in a new array
    that the reconciler returns, the item at the index of a derived
    sub-account is either that sub-account or a previous sub-account that
    has its id, every property of which holds the same value in the derived
    one. *)
Theorem reconciliateSubAccounts_keeps_only_unchanged
    h tokenAccounts account prev i ta :
  subAccounts account = Some prev →
  arrayAt h tokenAccounts !! i = Some ta →
  let out := reconciliateSubAccounts h tokenAccounts (Some account) in
  returned out ≠ prev →
  ∃ r, arrayAt (store out) (returned out) !! i = Some r
       ∧ (r = ta
          ∨ r ∈ arrayAt h prev
            ∧ idOf h r = idOf h ta
            ∧ ∀ k v, (k, v) ∈ objectAt h r →
                     get (objectAt h r) k = get (objectAt h ta) k).
Proof.
  intros Hprev Hi out Hret.
  destruct (reconcile_parts h tokenAccounts account) as (_ & _ & Hr).
  destruct (reconcile_flagged h tokenAccounts account) as [_ Harr].
  { left. fold out in Hr.
    destruct (anySubAccountHaveChanged _); [done|].
    rewrite Hprev in Hr. by destruct Hret. }
  fold out in Harr. rewrite Harr.
  destruct (mapItems_at h (arrayAt h <$> subAccounts account)
              (arrayAt h tokenAccounts)
              (initialLocals h tokenAccounts account) i ta Hi)
    as (si & Hlook & _ & _).
  eexists. split; [done|].
  destruct (reconcileOne_origin h (arrayAt h <$> subAccounts account) ta si)
    as [[-> _]|(prev' & p & Hp & Hfind & -> & Hsame)]; [by left|].
  right. rewrite Hprev in Hp. injection Hp as <-.
  apply findById_Some in Hfind as [Hin Hid]. by split_and!.
Qed.

(** X25.  When the ids of the derived sub-accounts are pairwise distinct and
    no note is recorded, the previous list, which is then what is returned,
    holds exactly the ids of the derived list, in some order. *)
Theorem reconciliateSubAccounts_same_ids h tokenAccounts account prev :
  subAccounts account = Some prev →
  keyedById h (arrayAt h tokenAccounts) →
  let out := reconciliateSubAccounts h tokenAccounts (Some account) in
  notes out = [] →
  idOf h <$> arrayAt h tokenAccounts ≡ₚ idOf h <$> arrayAt h prev.
Proof.
  intros Hprev Hkey out Hnotes.
  destruct (reconcile_parts h tokenAccounts account) as (_ & Hn & _).
  pose proof (mapItems_inStep h (arrayAt h <$> subAccounts account)
                (arrayAt h tokenAccounts) _
                (initialLocals_inStep h tokenAccounts account)) as Hstep.
  fold out in Hn. rewrite Hnotes in Hn. symmetry in Hn.
  apply Hstep in Hn as Hquiet.
  assert (length (arrayAt h tokenAccounts) = length (arrayAt h prev)) as Hlen.
  { destruct (mapItems_grows h (arrayAt h <$> subAccounts account)
                (arrayAt h tokenAccounts)
                (initialLocals h tokenAccounts account)) as [Hmono _].
    destruct (decide (length (arrayAt h tokenAccounts)
                      = length (arrayAt h prev))) as [|Hne]; [done|].
    assert (initialLocals h tokenAccounts account
            = mkLocals true ["length differ"]) as Hs0.
    { unfold initialLocals. by rewrite Hprev, bool_decide_eq_true_2. }
    rewrite Hs0 in Hmono at 1. rewrite Hmono in Hquiet; done. }
  apply submseteq_length_Permutation; [|by rewrite !length_fmap, Hlen].
  apply NoDup_submseteq; [done|].
  intros id (ta & -> & Hin)%list_elem_of_fmap.
  apply list_elem_of_lookup in Hin as [i Hi].
  destruct (mapItems_at h (arrayAt h <$> subAccounts account)
              (arrayAt h tokenAccounts)
              (initialLocals h tokenAccounts account) i ta Hi)
    as (si & _ & Hflag & _).
  destruct (reconcileOne_origin h (arrayAt h <$> subAccounts account) ta si)
    as [[_ Hup]|(prev' & p & Hp & Hfind & _)].
  { rewrite (Hflag Hup) in Hquiet. done. }
  rewrite Hprev in Hp. injection Hp as <-.
  apply findById_Some in Hfind as [Hin <-].
  by apply list_elem_of_fmap_2.
Qed.

End ReconcilerMore.

(** ** The account shape builder *)

Section ShapeFacts.

Import JS Classifier Fetcher Shape.

Context {Date World : Type}.
Variable getAccountOperations :
  string → option Z → World → list APIOperation * World.
Variable getAccountAndBlockCount : string → World → (APIAccount * Z) * World.
Variable now : World → Date * World.
Variable encodeOperationId : string → option string → OperationType → string.
Variable mergeOps : list Operation → list Operation → list Operation.

Abbreviation getAccountShape :=
  (Shape.getAccountShape getAccountOperations getAccountAndBlockCount now
     encodeOperationId mergeOps).
Abbreviation fetchAllTransactions :=
  (Fetcher.fetchAllTransactions getAccountOperations).
Abbreviation txToOp := (Classifier.txToOp encodeOperationId).

(** A call, with the monad unfolded. *)
Lemma getAccountShape_run infoInput s :
  let address := info_address infoInput in
  let answer := getAccountAndBlockCount address (world s) in
  let apiAccount := fst (fst answer) in
  let blockHeight := snd (fst answer) in
  let s1 := mkState (snd answer) (fetches s) (logs s) in
  let fetched := fetchAllTransactions address None s1 in
  let s2 := snd fetched in
  let results := txToOp address (info_id infoInput) <$> fst fetched in
  getAccountShape infoInput s =
  if String.eqb (account_type apiAccount) "empty" then
    (Minimal blockHeight (fst (now (snd answer))),
     mkState (snd (now (snd answer))) (fetches s) (logs s))
  else if negb (String.eqb (account_type apiAccount) "user") then
    (InvariantFailed "unsupported account of type ", s1)
  else if existsb isTypeError results then (Throws, s2)
  else
    (Full {|
       operations :=
         mergeOps
           (match info_initialAccount infoInput with
            | Some initialAccount => initial_operations initialAccount
            | None => []
            end)
           (omap defined results);
       balance := account_balance apiAccount;
       subAccounts := [];
       spendableBalance := account_balance apiAccount;
       blockHeight := blockHeight;
       lastSyncDate := fst (now (world s2));
       tezosResources := mkTezosResources (account_revealed apiAccount)
     |},
     mkState (snd (now (world s2))) (fetches s2) (logs s2)).
Proof.
  cbv zeta. unfold Shape.getAccountShape, bind, await_all, newDate, ret.
  destruct (getAccountAndBlockCount _ _) as [[apiAccount blockHeight] w1].
  cbn [fst snd].
  destruct (String.eqb (account_type apiAccount) "empty").
  { cbn [world]. by destruct (now w1). }
  destruct (negb (String.eqb (account_type apiAccount) "user")); [done|].
  destruct (Fetcher.fetchAllTransactions _ _ _ _) as [txs s2].
  cbn [fst snd].
  destruct (existsb isTypeError _); [done|].
  by destruct (now (world s2)).
Qed.

(** What [map] and [filter] of line 69 keep: the operations emitted, in the
    order of the raw transactions. *)
Lemma newOps_emitted address accountId (txs : list APIOperation) op :
  op ∈ omap defined (txToOp address accountId <$> txs)
  ↔ ∃ tx, tx ∈ txs ∧ txToOp address accountId tx = Emitted op.
Proof.
  rewrite list_elem_of_omap. split.
  - intros (r & (tx & -> & Hin)%list_elem_of_fmap & Hd).
    exists tx. split; [done|].
    destruct (txToOp address accountId tx); simpl in Hd; congruence.
  - intros (tx & Hin & He). exists (txToOp address accountId tx).
    split; [by apply list_elem_of_fmap_2|]. by rewrite He.
Qed.

Lemma existsb_isTypeError address accountId (txs : list APIOperation) :
  existsb isTypeError (txToOp address accountId <$> txs) = true
  ↔ ∃ tx, tx ∈ txs ∧ txToOp address accountId tx = TypeError.
Proof.
  rewrite existsb_exists. split.
  - intros (r & (tx & -> & Hin)%list_elem_of_In%list_elem_of_fmap & Hr).
    exists tx. split; [done|].
    by destruct (txToOp address accountId tx).
  - intros (tx & Hin & Ht). exists TypeError. split; [|done].
    apply list_elem_of_In. rewrite <- Ht. by apply list_elem_of_fmap_2.
Qed.

Lemma txToOp_TypeError address accountId tx :
  txToOp address accountId tx = TypeError
  ↔ tx_type tx = "origination" ∧ tx_originatedContract tx = None.
Proof.
  rewrite <- (classify_TypeError address). unfold Classifier.txToOp.
  destruct (classify address tx) as [c|w|] eqn:Hc; [|done..].
  unfold Classifier.settle. split; [by case_match|done].
Qed.

(** X26.  For an account that the indexer reports as empty,
    [getAccountShape] returns the object that holds only the block height
    and the date, and asks the indexer for no operation. *)
Theorem getAccountShape_empty infoInput s :
  let answer := getAccountAndBlockCount (info_address infoInput) (world s) in
  account_type (fst (fst answer)) = "empty" →
  let run := getAccountShape infoInput s in
  fst run = Minimal (snd (fst answer)) (fst (now (snd answer)))
  ∧ fetches (snd run) = fetches s
  ∧ logs (snd run) = logs s.
Proof.
  intros answer Hempty run. subst run.
  rewrite getAccountShape_run. cbv zeta. fold answer. by rewrite Hempty.
Qed.

(** X27.  For an account that the indexer reports as neither empty nor a
    user, [getAccountShape] fails with the error of [invariant], and asks
    the indexer for no operation. *)
Theorem getAccountShape_unsupported infoInput s :
  let answer := getAccountAndBlockCount (info_address infoInput) (world s) in
  account_type (fst (fst answer)) ≠ "empty" →
  account_type (fst (fst answer)) ≠ "user" →
  let run := getAccountShape infoInput s in
  fst run = InvariantFailed "unsupported account of type "
  ∧ fetches (snd run) = fetches s
  ∧ logs (snd run) = logs s.
Proof.
  intros answer Hne Hnu run. subst run.
  rewrite getAccountShape_run. cbv zeta. fold answer.
  apply String.eqb_neq in Hne, Hnu. by rewrite Hne, Hnu.
Qed.

(** X28.  For a user account none of whose fetched operations is an
    origination without contract, [getAccountShape] returns an account
    shape: its operations are [mergeOps] of the operations of the initial
    account (none without one) and of the operations that [txToOp] emits for
    the fetched ones, in their order; balance and spendable balance are the
    balance that the indexer reports; there is no sub-account. *)
Theorem getAccountShape_user infoInput s :
  let address := info_address infoInput in
  let answer := getAccountAndBlockCount address (world s) in
  let fetched :=
    fetchAllTransactions address None
      (mkState (snd answer) (fetches s) (logs s)) in
  account_type (fst (fst answer)) = "user" →
  (∀ tx, tx ∈ fst fetched → tx_type tx = "origination" →
         tx_originatedContract tx ≠ None) →
  ∃ shape,
    fst (getAccountShape infoInput s) = Full shape
    ∧ operations shape
      = mergeOps
          (if info_initialAccount infoInput is Some initialAccount
           then initial_operations initialAccount else [])
          (omap defined (txToOp address (info_id infoInput) <$> fst fetched))
    ∧ balance shape = account_balance (fst (fst answer))
    ∧ spendableBalance shape = balance shape
    ∧ subAccounts shape = []
    ∧ blockHeight shape = snd (fst answer)
    ∧ revealed (tezosResources shape) = account_revealed (fst (fst answer)).
Proof.
  intros address answer fetched Huser Hok.
  rewrite getAccountShape_run. cbv zeta. fold address answer fetched.
  rewrite Huser. cbn [String.eqb Ascii.eqb Bool.eqb negb].
  destruct (existsb isTypeError _) eqn:Hex.
  - apply existsb_isTypeError in Hex as (tx & Hin & [Hk Hc]%txToOp_TypeError).
    by destruct (Hok tx Hin Hk).
  - eexists. split; [done|]. by split_and!.
Qed.

(** X29.  For a user account one of whose fetched operations is an
    origination without contract, [getAccountShape] fails with the
    TypeError of [txToOp], whatever the other operations are. *)
Theorem getAccountShape_throws infoInput s tx :
  let address := info_address infoInput in
  let answer := getAccountAndBlockCount address (world s) in
  let fetched :=
    fetchAllTransactions address None
      (mkState (snd answer) (fetches s) (logs s)) in
  account_type (fst (fst answer)) = "user" →
  tx ∈ fst fetched →
  tx_type tx = "origination" →
  tx_originatedContract tx = None →
  fst (getAccountShape infoInput s) = Throws.
Proof.
  intros address answer fetched Huser Hin Hk Hc.
  rewrite getAccountShape_run. cbv zeta. fold address answer fetched.
  rewrite Huser. cbn [String.eqb Ascii.eqb Bool.eqb negb].
  rewrite (proj2 (existsb_isTypeError address (info_id infoInput)
                    (fst fetched))); [done|].
  exists tx. split; [done|]. by apply txToOp_TypeError.
Qed.

End ShapeFacts.

(** ** The further properties at the sample inputs *)

Section MoreWitnesses.

Import JS Classifier Fetcher Reconciler Notions Examples Samples.

Lemma txToOp_unrelated_witness :
  txToOp encodeOperationId "A" "acc" unrelated =
  Undefined (Some (Unrelated "found tx is unrelated to account! op")).
Proof.
  apply (txToOp_unrelated encodeOperationId "A" "acc" unrelated);
    [reflexivity|discriminate..].
Defined.

Lemma txToOp_delegation_witness :
  ∃ op, txToOp encodeOperationId "A" "acc" delegation = Emitted op
        ∧ op_type op = DELEGATE
        ∧ op_senders op = ["A"]
        ∧ op_recipients op = ["baker"]
        ∧ op_fee op = computeFee delegation
        ∧ op_value op = op_fee op.
Proof.
  exact (txToOp_delegation encodeOperationId "A" "acc" delegation eq_refl).
Defined.

Lemma txToOp_reveal_witness :
  ∃ op, txToOp encodeOperationId "A" "acc" reveal = Emitted op
        ∧ op_type op = REVEAL
        ∧ op_senders op = ["A"]
        ∧ op_recipients op = ["A"]
        ∧ op_fee op = computeFee reveal
        ∧ op_value op = op_fee op.
Proof.
  exact (txToOp_reveal encodeOperationId "A" "acc" reveal eq_refl).
Defined.

Lemma txToOp_migration_witness :
  ∃ op, txToOp encodeOperationId "A" "acc" migration = Emitted op
        ∧ op_type op = OUT
        ∧ op_fee op = computeFee migration
        ∧ op_value op = 30 + op_fee op
        ∧ op_senders op = ["A"] ∧ op_recipients op = ["A"].
Proof.
  apply (txToOp_migration encodeOperationId "A" "acc" migration eq_refl).
  reflexivity.
Defined.

Lemma txToOp_origination_witness :
  ∃ op, txToOp encodeOperationId "A" "acc" origination = Emitted op
        ∧ op_type op = CREATE
        ∧ op_fee op = computeFee origination
        ∧ op_value op = 70 + op_fee op
        ∧ op_senders op = ["A"]
        ∧ op_recipients op = ["KT1"].
Proof.
  exact (txToOp_origination encodeOperationId "A" "acc" origination
           (mkParty "KT1") eq_refl eq_refl).
Defined.

Lemma txToOp_activation_witness :
  ∃ op, txToOp encodeOperationId "A" "acc" activation = Emitted op
        ∧ op_type op = IN
        ∧ op_fee op = computeFee activation
        ∧ op_value op = 10
        ∧ op_senders op = ["A"] ∧ op_recipients op = ["A"].
Proof.
  apply (txToOp_activation encodeOperationId "A" "acc" activation eq_refl).
  discriminate.
Defined.

Lemma txToOp_outgoing_witness :
  ∃ op, txToOp encodeOperationId "A" "acc" outgoing = Emitted op
        ∧ op_type op = OUT
        ∧ op_fee op = computeFee outgoing
        ∧ op_value op = 100 + op_fee op
        ∧ op_recipients op = ["B"]
        ∧ ("A" ≠ "" → op_senders op = ["A"]).
Proof.
  apply (txToOp_outgoing encodeOperationId "A" "acc" outgoing);
    [reflexivity|reflexivity|discriminate|reflexivity|discriminate].
Defined.

Lemma txToOp_incoming_witness :
  ∃ op, txToOp encodeOperationId "A" "acc" incoming = Emitted op
        ∧ op_type op = IN
        ∧ op_fee op = computeFee incoming
        ∧ op_value op = 50
        ∧ ("A" ≠ "" → op_recipients op = ["A"]).
Proof.
  apply (txToOp_incoming encodeOperationId "A" "acc" incoming);
    [reflexivity|reflexivity|discriminate|reflexivity|discriminate].
Defined.

Lemma txToOp_failed_outgoing_witness :
  ∃ op, txToOp encodeOperationId "A" "acc" failedOutgoing = Emitted op
        ∧ op_type op = OUT
        ∧ op_hasFailed op = true
        ∧ op_fee op = 1
        ∧ op_value op = 1.
Proof.
  apply (txToOp_failed_outgoing encodeOperationId "A" "acc" failedOutgoing);
    [reflexivity|reflexivity|discriminate|reflexivity].
Defined.

Lemma txToOp_transfer_direction_witness :
  (op_type incoming_op = IN ∨ op_type incoming_op = OUT
   ∨ op_type incoming_op = FEES)
  ∧ (op_type incoming_op = IN →
     party_address <$> tx_target incoming = Some "A"
     ∧ party_address <$> tx_sender incoming ≠ Some "A"
     ∧ hasFailed incoming = false
     ∧ op_value incoming_op = default 0 (tx_amount incoming)
     ∧ op_value incoming_op ≠ 0)
  ∧ (op_type incoming_op = OUT →
     party_address <$> tx_sender incoming = Some "A"
     ∧ party_address <$> tx_target incoming ≠ Some "A")
  ∧ (op_type incoming_op = FEES → op_value incoming_op = op_fee incoming_op).
Proof.
  apply (txToOp_transfer_direction encodeOperationId "A" "acc"
           incoming incoming_op); reflexivity.
Defined.

Lemma txToOp_transfer_parties_witness :
  op_recipients incoming_op = ["A"]
  ∧ (∀ f, party_address <$> tx_sender incoming = Some f → f ≠ "" →
          op_senders incoming_op = [f])
  ∧ (party_address <$> tx_sender incoming = None
     ∨ party_address <$> tx_sender incoming = Some "" →
     op_senders incoming_op = [default "" (party_address <$> tx_initiator incoming)]).
Proof.
  apply (txToOp_transfer_parties encodeOperationId "A" "acc"
           incoming incoming_op); reflexivity.
Defined.

Lemma txToOp_not_negative_witness :
  0 ≤ op_fee incoming_op
  ∧ 0 ≤ op_value incoming_op
  ∧ (op_type incoming_op ≠ IN → op_fee incoming_op ≤ op_value incoming_op)
  ∧ (op_type incoming_op = IN → 0 < op_value incoming_op).
Proof.
  apply (txToOp_not_negative encodeOperationId "A" "acc" incoming incoming_op).
  - unfold amountsNotNegative. simpl. lia.
  - reflexivity.
Defined.

Lemma reconciliateSubAccounts_new_witness :
  let out :=
    reconciliateSubAccounts newTokenStore 11%positive (Some previousAccount) in
  freshIn newTokenStore (returned out)
  ∧ arrayAt (store out) (returned out) !! 0%nat = Some 2%positive
  ∧ newNote newTokenStore 2%positive ∈ notes out.
Proof.
  apply (reconciliateSubAccounts_new newTokenStore 11%positive
           previousAccount 0%nat 2%positive).
  - reflexivity.
  - intros prev p [= <-] Hin. vm_compute in Hin.
    apply list_elem_of_singleton in Hin as ->. discriminate.
Defined.

Lemma reconciliateSubAccounts_changed_witness :
  let out :=
    reconciliateSubAccounts changedStore 11%positive (Some previousAccount) in
  freshIn changedStore (returned out)
  ∧ arrayAt (store out) (returned out) !! 0%nat = Some 2%positive
  ∧ ∃ k', get (objectAt changedStore 1%positive) k'
          ≠ get (objectAt changedStore 2%positive) k'
          ∧ changedNote changedStore k' 2%positive ∈ notes out.
Proof.
  apply (reconciliateSubAccounts_changed changedStore 11%positive
           previousAccount 10%positive 0%nat 2%positive 1%positive
           "balance" (VNumber 5)).
  - reflexivity.
  - reflexivity.
  - reflexivity.
  - vm_compute. right. left.
  - discriminate.
Defined.

Lemma reconciliateSubAccounts_same_list_witness :
  let out :=
    reconciliateSubAccounts unchangedStore 11%positive (Some previousAccount) in
  returned out = 10%positive ↔ notes out = [].
Proof.
  apply (reconciliateSubAccounts_same_list unchangedStore 11%positive
           previousAccount 10%positive).
  - reflexivity.
  - apply elem_of_dom. eexists. reflexivity.
Defined.

Lemma reconciliateSubAccounts_length_differ_witness :
  let out :=
    reconciliateSubAccounts sharedIdStore 11%positive (Some previousAccount) in
  freshIn sharedIdStore (returned out)
  ∧ ∃ rest, notes out = "length differ" :: rest.
Proof.
  apply (reconciliateSubAccounts_length_differ sharedIdStore 11%positive
           previousAccount 10%positive).
  - reflexivity.
  - discriminate.
Defined.

Lemma reconciliateSubAccounts_no_previous_list_witness :
  let out :=
    reconciliateSubAccounts unchangedStore 11%positive (Some bareAccount) in
  freshIn unchangedStore (returned out)
  ∧ arrayAt (store out) (returned out) = arrayAt unchangedStore 11%positive
  ∧ notes out = newNote unchangedStore <$> arrayAt unchangedStore 11%positive.
Proof.
  apply (reconciliateSubAccounts_no_previous_list unchangedStore 11%positive
           bareAccount).
  reflexivity.
Defined.

Lemma reconciliateSubAccounts_keeps_only_unchanged_witness :
  let out :=
    reconciliateSubAccounts changedStore 11%positive (Some previousAccount) in
  ∃ r, arrayAt (store out) (returned out) !! 0%nat = Some r
       ∧ (r = 2%positive
          ∨ r ∈ arrayAt changedStore 10%positive
            ∧ idOf changedStore r = idOf changedStore 2%positive
            ∧ ∀ k v, (k, v) ∈ objectAt changedStore r →
                     get (objectAt changedStore r) k
                     = get (objectAt changedStore 2%positive) k).
Proof.
  apply (reconciliateSubAccounts_keeps_only_unchanged changedStore 11%positive
           previousAccount 10%positive 0%nat 2%positive).
  - reflexivity.
  - reflexivity.
  - discriminate.
Defined.

Lemma reconciliateSubAccounts_same_ids_witness :
  idOf unchangedStore <$> arrayAt unchangedStore 11%positive
  ≡ₚ idOf unchangedStore <$> arrayAt unchangedStore 10%positive.
Proof.
  apply (reconciliateSubAccounts_same_ids unchangedStore 11%positive
           previousAccount 10%positive).
  - reflexivity.
  - vm_compute. apply NoDup_singleton.
  - reflexivity.
Defined.

Lemma getAccountShape_empty_witness :
  let run :=
    Shape.getAccountShape smallIndexer emptyAccount clock encodeOperationId
      newestFirst firstSync (start 0%nat) in
  fst run = Shape.Minimal 100 1609459200000
  ∧ fetches (snd run) = []
  ∧ logs (snd run) = [].
Proof.
  apply (getAccountShape_empty smallIndexer emptyAccount clock
           encodeOperationId newestFirst firstSync (start 0%nat)).
  reflexivity.
Defined.

Lemma getAccountShape_unsupported_witness :
  let run :=
    Shape.getAccountShape smallIndexer contractAccount clock encodeOperationId
      newestFirst firstSync (start 0%nat) in
  fst run = Shape.InvariantFailed "unsupported account of type "
  ∧ fetches (snd run) = []
  ∧ logs (snd run) = [].
Proof.
  apply (getAccountShape_unsupported smallIndexer contractAccount clock
           encodeOperationId newestFirst firstSync (start 0%nat));
    discriminate.
Defined.

Lemma getAccountShape_user_witness :
  ∃ shape,
    fst (Shape.getAccountShape smallIndexer userAccount clock encodeOperationId
           newestFirst firstSync (start 0%nat))
    = Shape.Full shape
    ∧ Shape.operations shape
      = newestFirst []
          (omap Shape.defined
             (txToOp encodeOperationId "A" "acc" <$> [outgoing; selfTransfer]))
    ∧ Shape.balance shape = 1000
    ∧ Shape.spendableBalance shape = Shape.balance shape
    ∧ Shape.subAccounts shape = []
    ∧ Shape.blockHeight shape = 100
    ∧ Shape.revealed (Shape.tezosResources shape) = Some true.
Proof.
  apply (getAccountShape_user smallIndexer userAccount clock
           encodeOperationId newestFirst firstSync (start 0%nat)).
  - reflexivity.
  - intros tx Hin Hk. vm_compute in Hin.
    apply elem_of_cons in Hin as [->|Hin]; [discriminate|].
    apply list_elem_of_singleton in Hin as ->. discriminate.
Defined.

Lemma getAccountShape_throws_witness :
  fst (Shape.getAccountShape brokenIndexer userAccount clock encodeOperationId
         newestFirst firstSync (start 0%nat))
  = Shape.Throws.
Proof.
  apply (getAccountShape_throws brokenIndexer userAccount clock
           encodeOperationId newestFirst firstSync (start 0%nat)
           brokenOrigination).
  - reflexivity.
  - vm_compute. right. left.
  - reflexivity.
  - reflexivity.
Defined.

End MoreWitnesses.
